(** * go-pgsql: the prepared-statement layer (statement.go)

    A shallow embedding of [statement.go]: the named-parameter rewriter
    ([replaceParameterNameInSubstring], [replaceParameterName],
    [adjustCommand]), statement construction ([newStatement]) and the
    execution methods ([Query], [Execute], [Scan], [Close]).

    Go strings are byte sequences and are modelled as [list ascii]; a
    run-time panic is an explicit outcome of the functions that can raise
    one. *)

From Stdlib Require Import Ascii String List Arith Bool Lia ZArith.
From Stdlib Require Import DecimalString DecimalNat.
From stdpp Require Import gmap strings.
Import ListNotations.

Local Open Scope nat_scope.
Local Open Scope list_scope.

(** * The embedding of [statement.go]

    ** Go strings and panics *)

Definition gostring : Type := list ascii.

(** A string literal of the source. *)
Definition str (s : string) : gostring := list_ascii_of_string s.

(** The outcome of a call that may panic.  [Beyond] marks an input the
    embedding does not cover, see [compileParamRegExp]. *)
Inductive result (A : Type) : Type :=
| Ok (a : A)
| Panic (msg : gostring)
| Beyond.

Arguments Ok {A} a.
Arguments Panic {A} msg.
Arguments Beyond {A}.

Definition bind {A B : Type} (r : result A) (k : A -> result B) : result B :=
  match r with
  | Ok a => k a
  | Panic msg => Panic msg
  | Beyond => Beyond
  end.

Notation "'try' x <- r ;; k" := (bind r (fun x => k))
  (at level 10, x name, r at level 99, k at level 200).
Notation "'try' ' p <- r ;; k" := (bind r (fun p => k))
  (at level 10, p pattern, r at level 99, k at level 200).

(** A loop whose body may panic: [for _, x := range xs { acc = body acc x }]. *)
Fixpoint forRange {A B : Type} (body : A -> B -> result A) (xs : list B) (acc : A)
  : result A :=
  match xs with
  | [] => Ok acc
  | x :: rest => try acc' <- body acc x ;; forRange body rest acc'
  end.

Definition sliceBoundsOutOfRange : gostring :=
  str "runtime error: slice bounds out of range".

(** [s[lo:hi]]: Go panics unless [lo <= hi <= len(s)]. *)
Definition slice (s : gostring) (lo hi : nat) : result gostring :=
  if (lo <=? hi) && (hi <=? length s)
  then Ok (firstn (hi - lo) (skipn lo s))
  else Panic sliceBoundsOutOfRange.

(** [s[lo:]] *)
Definition sliceFrom (s : gostring) (lo : nat) : result gostring :=
  slice s lo (length s).

(** ** The two regular expressions *)

Definition quote : ascii := "'"%char.

(** The character class [[\- |\n\r\t,)(;=+/<>]] of [paramRegExp]. *)
Definition delimiters : gostring :=
  [ "-"; " "; "|"; "010"; "013"; "009"; ","; ")"; "("; ";"; "="; "+"; "/"; "<"; ">" ]%char.

(** The character class [[:|@]] of [paramRegExp]. *)
Definition sigils : gostring := [ ":"; "|"; "@" ]%char.

Definition isDelim (c : ascii) : bool := existsb (Ascii.eqb c) delimiters.
Definition isSigil (c : ascii) : bool := existsb (Ascii.eqb c) sigils.
Definition isQuote (c : ascii) : bool := Ascii.eqb c quote.

(** Characters with a meaning of their own in the pattern syntax of package
    regexp, and bytes outside ASCII. *)
Definition metaChars : gostring :=
  [ "\"; "."; "+"; "*"; "?"; "("; ")"; "|"; "["; "]"; "{"; "}"; "^"; "$" ]%char.

Definition isLiteral (c : ascii) : bool :=
  negb (existsb (Ascii.eqb c) metaChars) && (nat_of_ascii c <? 128).

(** The regular expressions of the file.  [quoteRegExp] is ['[^']*'].
    [ParamRegExp tl] is the pattern
    [[\- |\n\r\t,)(;=+/<>][:|@]] ++ tl ++ [([\- |\n\r\t,)(;=+/<>]|$)]
    for a text [tl] that the pattern syntax reads literally. *)
Inductive Regexp : Type :=
| quoteRegExp
| ParamRegExp (tl : gostring).

(** [regexp.MustCompile] of the pattern built around [old[1:]].  The
    parameter's name is spliced into the pattern unescaped; the embedding
    covers the names whose tail the pattern syntax reads literally, and
    answers [Beyond] for the others (there [MustCompile] panics or yields
    a pattern that is not a literal). *)
Definition compileParamRegExp (tl : gostring) : result Regexp :=
  if forallb isLiteral tl then Ok (ParamRegExp tl) else Beyond.

(** [stripPrefix p s]: what follows [p] in [s], when [s] starts with [p]. *)
Fixpoint stripPrefix (p s : gostring) : option gostring :=
  match p, s with
  | [], _ => Some s
  | _ :: _, [] => None
  | a :: p', b :: s' => if Ascii.eqb a b then stripPrefix p' s' else None
  end.

(** Length of the text up to and including the first quote of [s]. *)
Fixpoint upToQuote (s : gostring) : option nat :=
  match s with
  | [] => None
  | c :: r => if isQuote c then Some 1 else option_map S (upToQuote r)
  end.

(** [matchHere re s]: the length of the match of [re] that begins at the
    first byte of [s], if there is one.  Both patterns have at most one
    match at a given start: for [quoteRegExp] up to the next quote, for a
    parameter pattern the closing alternatives (a delimiter, the end of
    the text) exclude each other. *)
Definition matchHere (re : Regexp) (s : gostring) : option nat :=
  match re with
  | quoteRegExp =>
      match s with
      | c :: r => if isQuote c then option_map S (upToQuote r) else None
      | [] => None
      end
  | ParamRegExp tl =>
      match s with
      | d :: g :: r =>
          if isDelim d && isSigil g then
            match stripPrefix tl r with
            | Some [] => Some (2 + length tl)
            | Some (e :: _) => if isDelim e then Some (3 + length tl) else None
            | None => None
            end
          else None
      | _ => None
      end
  end.

(** The scan behind [FindAllStringIndex]: [off] is the index of the first
    byte of [s] in the whole text, [skip] the number of bytes of [s] that
    still belong to the previous match.  The leftmost match is taken and
    the search goes on where it ended. *)
Fixpoint findAllFrom (re : Regexp) (off skip : nat) (s : gostring) : list (nat * nat) :=
  match s with
  | [] => []
  | _ :: r =>
      match skip with
      | S k => findAllFrom re (S off) k r
      | O =>
          match matchHere re s with
          | Some n => (off, off + n) :: findAllFrom re (S off) (n - 1) r
          | None => findAllFrom re (S off) 0 r
          end
      end
  end.

(** [re.FindAllStringIndex(s, -1)]: the successive non-overlapping matches
    of [re] in [s], as pairs (start, end). *)
Definition FindAllStringIndex (re : Regexp) (s : gostring) : list (nat * nat) :=
  findAllFrom re 0 0 s.

(** ** The rewriter *)

(** [buf] is the [bytes.Buffer] written so far; the function returns it
    with what the call appended.  [prevMatchEnd] is 1 or the end of a
    match, which is 2 at least ([matchHere_bounds]), so that
    [prevMatchEnd - 1] is the subtraction of Go. *)
Definition replaceParameterNameInSubstring
    (s old new : gostring) (buf : gostring) (paramRegExp : Regexp) : result gostring :=
  let matchIndexPairs := FindAllStringIndex paramRegExp s in
  try '(buf, prevMatchEnd) <-
    forRange (fun '(buf, prevMatchEnd) '(matchStart, matchEnd) =>
                try piece <- slice s (prevMatchEnd - 1) (matchStart + 1) ;;
                Ok (buf ++ piece ++ new, matchEnd))
             matchIndexPairs (buf, 1) ;;
  if 1 <? prevMatchEnd then
    try rest <- sliceFrom s (prevMatchEnd - 1) ;;
    Ok (buf ++ rest)
  else Ok (buf ++ s).

Definition replaceParameterName (command old new : gostring) : result gostring :=
  try tl <- sliceFrom old 1 ;;
  try paramRegExp <- compileParamRegExp tl ;;
  let quoteIndexPairs := FindAllStringIndex quoteRegExp command in
  try '(buf, prevQuoteEnd) <-
    forRange (fun '(buf, prevQuoteEnd) '(quoteStart, quoteEnd) =>
                try seg <- slice command prevQuoteEnd quoteStart ;;
                try buf <- replaceParameterNameInSubstring seg old new buf paramRegExp ;;
                try quoted <- slice command quoteStart quoteEnd ;;
                Ok (buf ++ quoted, quoteEnd))
             quoteIndexPairs ([], 0) ;;
  if 0 <? length buf then
    try rest <- sliceFrom command prevQuoteEnd ;;
    replaceParameterNameInSubstring rest old new buf paramRegExp
  else replaceParameterNameInSubstring command old new buf paramRegExp.

(** ** Parameters and [adjustCommand] *)

(** Addresses of [Parameter] and of [Statement] objects. *)
Definition ptr : Type := nat.
Definition stmtRef : Type := nat.

(** The struct [Parameter] ([Parameter] is reserved in Rocq), with the
    fields that [statement.go] reads and writes; [value] is read by the
    command log of [Query] only and is left out. *)
Record Param : Type := mkParameter {
  name : gostring;
  customTypeName : gostring;
  stmt : option stmtRef
}.

(** [%d] of a non-negative int. *)
Definition decimal (n : nat) : gostring :=
  str (NilEmpty.string_of_uint (Nat.to_uint n)).

(** [cast]: [fmt.Sprintf("::%s", p.customTypeName)] when the custom type
    name is not empty. *)
Definition castOf (p : Param) : gostring :=
  match customTypeName p with
  | [] => []
  | _ :: _ => str "::" ++ customTypeName p
  end.

(** [fmt.Sprintf("$%d%s", i+1, cast)] *)
Definition positional (i : nat) (p : Param) : gostring :=
  str "$" ++ decimal (i + 1) ++ castOf p.

(** The loop of [adjustCommand], from index [i] on.  [params] are the
    parameters behind the pointers of the source: [newStatement] calls
    [adjustCommand] when its first loop has met no nil pointer. *)
Fixpoint adjustFrom (i : nat) (command : gostring) (params : list Param)
  : result gostring :=
  match params with
  | [] => Ok command
  | p :: rest =>
      try command <- replaceParameterName command (name p) (positional i p) ;;
      adjustFrom (S i) command rest
  end.

Definition adjustCommand (command : gostring) (params : list Param) : result gostring :=
  adjustFrom 0 command params.

(** ** Connections and statements *)

(** Modelled from the spec: the struct [Conn] is declared outside
    [statement.go].  Sections 3 and 6 of the specification give it one
    counter for prepared-statement names and one for portal names, each a
    zero-based, strictly increasing integer.  Its other parts (the
    protocol state, the log) are the collaborators of section
    [Execution]. *)
Record Conn : Type := mkConn {
  nextStatementId : nat;
  nextPortalId : nat
}.

(** Modelled from the spec: a connection on which no statement has been
    prepared yet (section 6: the counters are zero-based). *)
Definition freshConn : Conn := mkConn 0 0.

(** The struct [Statement].  [name] is [stmtName] here ([name] is the field
    of [Param]); [conn] is left out: the connection is the one passed
    to, and returned by, the functions below.  [params] holds the
    pointers as they were given ([None] is nil). *)
Record Statement : Type := mkStatement {
  stmtName : gostring;
  portalName : gostring;
  command : gostring;
  actualCommand : gostring;
  isClosed : bool;
  params : list (option ptr);
  name2param : gmap gostring ptr
}.

(** The [Parameter] objects of the program, by address. *)
Abbreviation Heap := (gmap ptr Param).

Definition receivedNil : gostring := str "received a nil parameter".

(** [fmt.Sprintf("parameter '%s' already used in another statement", name)] *)
Definition alreadyUsed (n : gostring) : gostring :=
  str "parameter '" ++ n ++ str "' already used in another statement".

(** A pointer of Go that is not nil refers to an object; an address
    without object in the heap is answered like nil. *)
Definition nilDereference : gostring :=
  str "runtime error: invalid memory address or nil pointer dereference".

(** The first loop of [newStatement]: [self] is the address of the
    statement under construction ([stmt := &Statement{}]).  The heap is
    returned also when the loop panics: what it wrote stays written. *)
Fixpoint bindParams (self : stmtRef) (params : list (option ptr))
    (name2param : gmap gostring ptr) (heap : Heap)
  : result (gmap gostring ptr) * Heap :=
  match params with
  | [] => (Ok name2param, heap)
  | None :: _ => (Panic receivedNil, heap)
  | Some a :: rest =>
      match heap !! a with
      | None => (Panic nilDereference, heap)
      | Some param =>
          match stmt param with
          | Some _ => (Panic (alreadyUsed (name param)), heap)
          | None =>
              bindParams self rest
                (<[name param := a]> name2param)
                (<[a := mkParameter (name param) (customTypeName param) (Some self)]> heap)
          end
      end
  end.

(** The parameters behind the pointers, as [adjustCommand] reads them. *)
Fixpoint derefAll (heap : Heap) (params : list (option ptr)) : result (list Param) :=
  match params with
  | [] => Ok []
  | None :: _ => Panic nilDereference
  | Some a :: rest =>
      match heap !! a with
      | None => Panic nilDereference
      | Some p => try ps <- derefAll heap rest ;; Ok (p :: ps)
      end
  end.

(** [fmt.Sprint("stmt", n)], [fmt.Sprint("prtl", n)]: no space is added
    next to a string operand. *)
Definition statementName (n : nat) : gostring := str "stmt" ++ decimal n.
Definition portalNameOf (n : nat) : gostring := str "prtl" ++ decimal n.

(** [newStatement]: the outcome, the connection and the heap after the
    call.  The log calls are left out. *)
Definition newStatement (self : stmtRef) (conn : Conn) (command : gostring)
    (params : list (option ptr)) (heap : Heap) : result Statement * Conn * Heap :=
  match bindParams self params ∅ heap with
  | (Ok name2param, heap) =>
      let name := statementName (nextStatementId conn) in
      let conn := mkConn (S (nextStatementId conn)) (nextPortalId conn) in
      let portalName := portalNameOf (nextPortalId conn) in
      let conn := mkConn (nextStatementId conn) (S (nextPortalId conn)) in
      (try ps <- derefAll heap params ;;
       try actualCommand <- adjustCommand command ps ;;
       Ok (mkStatement name portalName command actualCommand false params name2param),
       conn, heap)
  | (Panic msg, heap) => (Panic msg, conn, heap)
  | (Beyond, heap) => (Beyond, conn, heap)
  end.

(** The read accessors of a statement, without their log calls.
    [Parameter(name)] ([Parameter] is reserved in Rocq) returns the pointer
    kept under [name] in [name2param], and nil ([None]) when there is
    none; [Parameters()] returns a copy of the slice of pointers. *)
Definition ParameterNamed (st : Statement) (n : gostring) : option ptr :=
  match name2param st !! n with
  | Some param => Some param
  | None => None
  end.
Definition ParametersOf (st : Statement) : list (option ptr) := params st.
Definition IsClosed (st : Statement) : bool := isClosed st.
Definition ActualCommand (st : Statement) : gostring := actualCommand st.
Definition Command (st : Statement) : gostring := command st.

(** ** Execution *)

(** What [Query] returns: the result set, or the error. *)
Inductive QueryResult (ResultSet Error : Type) : Type :=
| Rows (rs : ResultSet)
| Failed (err : Error).

Arguments Rows {ResultSet Error} rs.
Arguments Failed {ResultSet Error} err.

Section Execution.

(** The collaborators of the statement layer, declared outside
    [statement.go]: the state of the connection, of the server and of the
    result sets ([World]), and the calls into them.  A call that may panic
    returns the value of the panic. *)
Variable World : Type.
Variable ResultSet : Type.
Variable Error : Type.
Variable PanicValue : Type.
Variable Args : Type.

(** [newResultSet(conn)] *)
Variable newResultSet : World -> ResultSet * World.
(** [conn.state.execute(stmt, r)] *)
Variable execute : Statement -> ResultSet -> World -> option PanicValue * World.
(** [conn.logAndConvertPanic(x)] *)
Variable logAndConvertPanic : PanicValue -> World -> Error * World.
(** [conn.writeClose('S', name)] *)
Variable writeClose : gostring -> World -> option PanicValue * World.
(** [rs.Close()]: the error it returns ([None] is nil), or its panic. *)
Variable rsClose : ResultSet -> World -> (option Error + PanicValue) * World.
(** [rs.rowsAffected] *)
Variable rowsAffected : ResultSet -> World -> Z.
(** [rs.ScanNext(args...)] *)
Variable ScanNext : ResultSet -> Args -> World -> (bool * option Error + PanicValue) * World.

(** [Query]: [rs = r] is reached when [execute] returns; a panic is
    recovered into [err]. *)
Definition Query (stmt : Statement) (w : World) : QueryResult ResultSet Error * World :=
  let (r, w) := newResultSet w in
  match execute stmt r w with
  | (None, w) => (Rows r, w)
  | (Some x, w) => let (err, w) := logAndConvertPanic x w in (Failed err, w)
  end.

(** [Execute]: the pair [(rowsAffected, err)]. *)
Definition Execute (stmt : Statement) (w : World) : (Z * option Error) * World :=
  match Query stmt w with
  | (Failed err, w) => ((0%Z, Some err), w)
  | (Rows rs, w) =>
      match rsClose rs w with
      | (inl err, w) => ((rowsAffected rs w, err), w)
      | (inr x, w) => let (err, w) := logAndConvertPanic x w in ((0%Z, Some err), w)
      end
  end.

(** [Scan]: the pair [(fetched, err)].  The deferred [rs.Close()] runs
    after [ScanNext], whether it returned or panicked; what [Close]
    returns is dropped, a panic of it is recovered into [err]. *)
Definition Scan (stmt : Statement) (args : Args) (w : World) : (bool * option Error) * World :=
  match Query stmt w with
  | (Failed err, w) => ((false, Some err), w)
  | (Rows rs, w) =>
      match ScanNext rs args w with
      | (inl (fetched, err), w) =>
          match rsClose rs w with
          | (inl _, w) => ((fetched, err), w)
          | (inr x, w) => let (err, w) := logAndConvertPanic x w in ((fetched, Some err), w)
          end
      | (inr x, w) =>
          match rsClose rs w with
          | (inl _, w) => let (err, w) := logAndConvertPanic x w in ((false, Some err), w)
          | (inr x', w) => let (err, w) := logAndConvertPanic x' w in ((false, Some err), w)
          end
      end
  end.

(** [Close]: the statement after the call, and [err]. *)
Definition Close (stmt : Statement) (w : World) : (Statement * option Error) * World :=
  match writeClose (stmtName stmt) w with
  | (None, w) =>
      ((mkStatement (stmtName stmt) (portalName stmt) (command stmt) (actualCommand stmt)
          true (params stmt) (name2param stmt), None), w)
  | (Some x, w) => let (err, w) := logAndConvertPanic x w in ((stmt, Some err), w)
  end.

End Execution.

(** * The vocabulary of the properties

    ** The rewriter as a single pass

    [rewriteSeg] and [rewriteCommand] read the text once, byte by byte,
    and are shown below to compute what the index arithmetic of
    [replaceParameterNameInSubstring] and [replaceParameterName] computes. *)

(** An unquoted stretch.  [skip] counts the bytes still covered by the
    match in progress: they are dropped, except the last one, which the
    source writes back ([s[prevMatchEnd-1:...]]). *)
Fixpoint rewriteSeg (tl new : gostring) (skip : nat) (s : gostring) : gostring :=
  match s with
  | [] => []
  | c :: r =>
      match skip with
      | S (S k) => rewriteSeg tl new (S k) r
      | S O => c :: rewriteSeg tl new 0 r
      | O =>
          match matchHere (ParamRegExp tl) s with
          | Some n => c :: new ++ rewriteSeg tl new (n - 1) r
          | None => c :: rewriteSeg tl new 0 r
          end
      end
  end.

(** A whole command.  [seg] is the unquoted stretch read so far, [skip]
    the number of bytes still inside the quoted region in progress. *)
Fixpoint rewriteCommand (tl new : gostring) (seg : gostring) (skip : nat) (s : gostring)
  : gostring :=
  match s with
  | [] => rewriteSeg tl new 0 seg
  | c :: r =>
      match skip with
      | S k => c :: rewriteCommand tl new [] k r
      | O =>
          match matchHere quoteRegExp s with
          | Some n => rewriteSeg tl new 0 seg ++ c :: rewriteCommand tl new [] (n - 1) r
          | None => rewriteCommand tl new (seg ++ [c]) 0 r
          end
      end
  end.

Arguments matchHere : simpl never.

(** ** Texts *)

(** The bytes [lo..hi) of [s]. *)
Definition sub (s : gostring) (lo hi : nat) : gostring := firstn (hi - lo) (skipn lo s).

Definition noQuote (s : gostring) : bool := forallb (fun c => negb (isQuote c)) s.
Definition noSigil (s : gostring) : bool := forallb (fun c => negb (isSigil c)) s.

(** Text made of unquoted stretches and closed quoted regions: every quote
    of it is paired, from the left. *)
Inductive Closed : gostring -> Prop :=
| Closed_unquoted (u : gostring) :
    noQuote u = true -> Closed u
| Closed_region (u q rest : gostring) :
    noQuote u = true -> noQuote q = true -> Closed rest ->
    Closed (u ++ quote :: q ++ quote :: rest).

(** The same, decided by the parity of the quotes. *)
Fixpoint closedFrom (inside : bool) (s : gostring) : bool :=
  match s with
  | [] => negb inside
  | c :: r => if isQuote c then closedFrom (negb inside) r else closedFrom inside r
  end.

Definition quotesClosed (s : gostring) : bool := closedFrom false s.

(** A text that is empty or ends with a closed quoted region. *)
Inductive Regions : gostring -> Prop :=
| Regions_nil : Regions []
| Regions_cons (u q rest : gostring) :
    noQuote u = true -> noQuote q = true -> Regions rest ->
    Regions (u ++ quote :: q ++ quote :: rest).

(** [s] is one of the unquoted stretches that [replaceParameterName] hands
    to [replaceParameterNameInSubstring] in the command [pre ++ s ++ post]:
    it begins after the closed regions of [pre], and it ends where the next
    closed region begins or, when none follows, where the command ends. *)
Definition stretchOf (pre s post : gostring) : Prop :=
  Regions pre /\
  ((noQuote s = true /\
    exists q post', noQuote q = true /\ post = quote :: q ++ quote :: post') \/
   (FindAllStringIndex quoteRegExp s = [] /\ post = [])).

(** ** Parameter lists the embedding covers *)

(** A name that is not empty and whose tail the pattern syntax reads
    literally. *)
Definition plainName (n : gostring) : bool :=
  match n with
  | [] => false
  | _ :: tl => forallb isLiteral tl
  end.

Definition plainNames (params : list Param) : bool :=
  forallb (fun p => plainName (name p)) params.

(** No custom type name holds a single quote. *)
Definition quoteFreeCasts (params : list Param) : bool :=
  forallb (fun p => noQuote (customTypeName p)) params.

(** [adjustCommand] as successive single passes. *)
Fixpoint rewriteAll (i : nat) (command : gostring) (params : list Param) : gostring :=
  match params with
  | [] => command
  | p :: rest =>
      rewriteAll (S i) (rewriteCommand (tail (name p)) (positional i p) [] 0 command) rest
  end.

(** ** Matches and tokens *)

(** [boundedAt tl s a b]: at index [a] of [s] stands a delimiter, then a
    sigil, then [tl], and then either a delimiter, whose end is [b], or
    the end of [s], which is [b]. *)
Definition boundedAt (tl s : gostring) (a b : nat) : Prop :=
  exists (u : gostring) (d g : ascii) (w : gostring),
    s = u ++ d :: g :: tl ++ w /\ length u = a /\
    isDelim d = true /\ isSigil g = true /\
    ((w = [] /\ b = a + 2 + length tl) \/
     (exists e w', w = e :: w' /\ isDelim e = true /\ b = a + 3 + length tl)).

(** The matches [ms] stand one after the other, from index [lo] on: each
    begins where the one before it has ended, or later, and none is empty. *)
Fixpoint successive (lo : nat) (ms : list (nat * nat)) : Prop :=
  match ms with
  | [] => True
  | (a, b) :: rest => lo <= a /\ a < b /\ successive b rest
  end.

Definition noDelim (s : gostring) : bool := forallb (fun c => negb (isDelim c)) s.

(** The first byte of every token. *)
Definition dollar : ascii := "$"%char.

(** No delimiter of [t] is followed in [t] by a sigil: no match of a
    parameter pattern begins with two bytes of [t]. *)
Fixpoint opensNoMatch (t : gostring) : bool :=
  match t with
  | [] => true
  | c :: r =>
      match r with
      | [] => true
      | c' :: _ => negb (isDelim c && isSigil c')
      end && opensNoMatch r
  end.

(** The parameter [:id], without custom type, not bound. *)
Definition idParam : Param := mkParameter (str ":id") [] None.

(** The token of the parameter at 1-based position [k]: [$k], followed by
    [::] and the custom type name when there is one. *)
Definition token (k : nat) (p : Param) : gostring :=
  match customTypeName p with
  | [] => str "$" ++ decimal k
  | _ :: _ => str "$" ++ decimal k ++ str "::" ++ customTypeName p
  end.

(** ** Construction *)

(** The parameter at [a] has its back-reference set. *)
Definition bound (heap : Heap) (a : ptr) : Prop :=
  exists p s, heap !! a = Some p /\ stmt p = Some s.

(** The parameter at [a] is allocated and free. *)
Definition unbound (heap : Heap) (a : ptr) : Prop :=
  exists p, heap !! a = Some p /\ stmt p = None.

(** The heaps that any number of calls of [newStatement] lead to. *)
Inductive afterConstructions (heap : Heap) : Heap -> Prop :=
| after_none : afterConstructions heap heap
| after_one (heap' : Heap) (self : stmtRef) (conn : Conn) (command : gostring)
    (params : list (option ptr)) :
    afterConstructions heap heap' ->
    afterConstructions heap (snd (newStatement self conn command params heap')).

(** A sequence of preparations on one connection: each request is the
    address of the new statement, the command and the parameters. *)
Definition Request : Type := stmtRef * gostring * list (option ptr).

Fixpoint prepareAll (reqs : list Request) (conn : Conn) (heap : Heap)
  : list (result Statement) * Conn * Heap :=
  match reqs with
  | [] => ([], conn, heap)
  | (self, command, params) :: rest =>
      let '(r, conn, heap) := newStatement self conn command params heap in
      let '(rs, conn, heap) := prepareAll rest conn heap in
      (r :: rs, conn, heap)
  end.

(** A request whose parameters are the objects at [ptrs]: none is nil. *)
Definition requestOf (r : stmtRef * gostring * list ptr) : Request :=
  (fst (fst r), snd (fst r), map Some (snd r)).

(** The parameter at [a] is allocated, free, and has a plain name. *)
Definition freePlain (heap : Heap) (a : ptr) : Prop :=
  exists p, heap !! a = Some p /\ stmt p = None /\ plainName (name p) = true.

(** Three requests on the parameters of [twoFree]. *)
Definition threeRequests : list (stmtRef * gostring * list ptr) :=
  [ (10, str "select :a ", [1]); (11, str "select 1", []); (12, str "select :b ", [2]) ].

(** The statements that were returned. *)
Fixpoint statements (rs : list (result Statement)) : list Statement :=
  match rs with
  | [] => []
  | Ok st :: rest => st :: statements rest
  | _ :: rest => statements rest
  end.

(** [ns] increases strictly and begins at [lo] or above. *)
Fixpoint ascendingFrom (lo : nat) (ns : list nat) : Prop :=
  match ns with
  | [] => True
  | n :: rest => lo <= n /\ ascendingFrom (S n) rest
  end.

(** Two free parameters, and a list that ends with nil. *)
Definition twoFree : Heap :=
  <[1 := mkParameter (str ":a") [] None]> (<[2 := mkParameter (str ":b") [] None]> ∅).

(** The parameter [p] with its back-reference set to the statement at
    [self]. *)
Definition rebind (self : stmtRef) (p : Param) : Param :=
  mkParameter (name p) (customTypeName p) (Some self).

(** None of the parameters has its back-reference set. *)
Definition unboundAll (values : list Param) : bool :=
  forallb (fun v => match stmt v with None => true | Some _ => false end) values.

(** Two parameters of the same name [:a], and [:b]. *)
Definition sameNames : Heap :=
  <[1 := mkParameter (str ":a") [] None]>
    (<[2 := mkParameter (str ":b") [] None]> (<[3 := mkParameter (str ":a") [] None]> ∅)).

(** ** A connection for the examples *)

(** A connection that runs what it is given: the world is the list of
    the statements executed, a result set is a number, and the close of a
    result set records one affected row for each statement executed. *)
Definition logNewResultSet (w : list gostring) : nat * list gostring := (length w, w).
Definition logExecute (stmt : Statement) (r : nat) (w : list gostring)
  : option gostring * list gostring := (None, w ++ [stmtName stmt]).
Definition logConvert (x : gostring) (w : list gostring) : gostring * list gostring := (x, w).
Definition logClose (r : nat) (w : list gostring)
  : (option gostring + gostring) * list gostring := (inl None, w).
Definition logRowsAffected (r : nat) (w : list gostring) : Z := Z.of_nat (length w).
Definition logScanNext (r : nat) (args : unit) (w : list gostring)
  : (bool * option gostring + gostring) * list gostring := (inl (true, None), w).

(** A connection that writes the first close message and panics at every
    later one. *)
Definition logWriteClose (name : gostring) (w : list gostring)
  : option gostring * list gostring :=
  match w with
  | [] => (None, [name])
  | _ :: _ => (Some (str "broken pipe"), w ++ [name])
  end.

(** A statement as [newStatement] returns it. *)
Definition preparedStatement : Statement :=
  mkStatement (str "stmt0") (str "prtl0") (str "select 1") (str "select 1") false [] ∅.

(** A statement that has been closed. *)
Definition closedStatement : Statement :=
  mkStatement (str "stmt0") (str "prtl0") (str "select 1") (str "select 1") true [] ∅.

(** ** Repeated [Close] *)

Section Lifetime.

Variables World Error PanicValue : Type.
Variable logAndConvertPanic : PanicValue -> World -> Error * World.
Variable writeClose : gostring -> World -> option PanicValue * World.

(** [n] calls of [Close] in a row: the statement and the world after
    them, and the errors returned, the last one first. *)
Fixpoint closeTimes (n : nat) (stmt : Statement) (w : World)
  : Statement * list (option Error) * World :=
  match n with
  | O => (stmt, [], w)
  | S k =>
      let '(stmt, errs, w) := closeTimes k stmt w in
      let '((stmt, err), w) :=
        Close World Error PanicValue logAndConvertPanic writeClose stmt w in
      (stmt, err :: errs, w)
  end.

End Lifetime.

(** * Proofs

    ** Slices and matches *)

Lemma slice_ok (s : gostring) (lo hi : nat) :
  lo <= hi -> hi <= length s -> slice s lo hi = Ok (sub s lo hi).
Proof.
  intros H1 H2. unfold slice.
  apply Nat.leb_le in H1. apply Nat.leb_le in H2. rewrite H1, H2. reflexivity.
Qed.

Lemma sub_snoc (pre r : gostring) (c : ascii) (lo : nat) :
  lo <= length pre ->
  sub (pre ++ c :: r) lo (S (length pre)) = sub (pre ++ c :: r) lo (length pre) ++ [c].
Proof.
  intros H. unfold sub.
  rewrite skipn_app.
  replace (lo - length pre) with 0 by lia. simpl skipn.
  rewrite !firstn_app.
  rewrite length_skipn.
  replace (length pre - lo - (length pre - lo)) with 0 by lia.
  replace (S (length pre) - lo - (length pre - lo)) with 1 by lia.
  simpl. rewrite app_nil_r.
  rewrite (firstn_all2 (n := S (length pre) - lo)) by (rewrite length_skipn; lia).
  rewrite (firstn_all2 (n := length pre - lo)) by (rewrite length_skipn; lia).
  reflexivity.
Qed.

Lemma sub_empty (s : gostring) (n : nat) : sub s n n = [].
Proof. unfold sub. rewrite Nat.sub_diag. reflexivity. Qed.

Lemma stripPrefix_Some (p s r : gostring) :
  stripPrefix p s = Some r <-> s = p ++ r.
Proof.
  revert s. induction p as [|a p IH]; intros s; simpl.
  - split; intros H; congruence.
  - destruct s as [|b s].
    + split; intros H; discriminate.
    + destruct (Ascii.eqb_spec a b) as [->|Hne].
      * rewrite IH. split; intros H; congruence.
      * split; intros H; [discriminate | congruence].
Qed.

Lemma stripPrefix_app (p r : gostring) : stripPrefix p (p ++ r) = Some r.
Proof. apply stripPrefix_Some. reflexivity. Qed.

Lemma upToQuote_bounds (s : gostring) (n : nat) :
  upToQuote s = Some n -> 1 <= n <= length s.
Proof.
  revert n. induction s as [|c r IH]; intros n; simpl; [discriminate|].
  destruct (isQuote c).
  - intros [= <-]. lia.
  - destruct (upToQuote r) as [m|]; simpl; [|discriminate].
    intros [= <-]. specialize (IH m eq_refl). lia.
Qed.

Lemma matchHere_bounds (re : Regexp) (s : gostring) (n : nat) :
  matchHere re s = Some n -> 2 <= n <= length s.
Proof.
  destruct re as [|tl]; unfold matchHere.
  - destruct s as [|c r]; [discriminate|].
    destruct (isQuote c); [|discriminate].
    destruct (upToQuote r) as [m|] eqn:E; simpl; [|discriminate].
    intros [= <-]. apply upToQuote_bounds in E. simpl. lia.
  - destruct s as [|d [|g r]]; try discriminate.
    destruct (isDelim d && isSigil g); [|discriminate].
    destruct (stripPrefix tl r) as [[|e w]|] eqn:E; try discriminate.
    + intros [= <-]. apply stripPrefix_Some in E. subst r.
      simpl. rewrite length_app. simpl. lia.
    + destruct (isDelim e); [|discriminate].
      intros [= <-]. apply stripPrefix_Some in E. subst r.
      simpl. rewrite length_app. simpl. lia.
Qed.

Lemma sub_all (s : gostring) : sub s 0 (length s) = s.
Proof. unfold sub. simpl. rewrite Nat.sub_0_r. apply firstn_all. Qed.

(** ** The index arithmetic computes the single pass *)

(** The loop of [replaceParameterNameInSubstring] over the text [txt], taken
    up when [pre] has been read. *)
Lemma segment_loop (tl new txt : gostring) :
  forall (rest pre : gostring) (skip : nat) (buf : gostring) (prev : nat),
  txt = pre ++ rest -> 1 <= prev ->
  (skip = 0 -> prev - 1 <= length pre) ->
  (skip <> 0 -> prev = length pre + skip /\ skip <= length rest) ->
  (try '(buf, prevMatchEnd) <-
     forRange (fun '(buf, prevMatchEnd) '(matchStart, matchEnd) =>
                 try piece <- slice txt (prevMatchEnd - 1) (matchStart + 1) ;;
                 Ok (buf ++ piece ++ new, matchEnd))
              (findAllFrom (ParamRegExp tl) (length pre) skip rest) (buf, prev) ;;
   if 1 <? prevMatchEnd then
     try rest <- sliceFrom txt (prevMatchEnd - 1) ;;
     Ok (buf ++ rest)
   else Ok (buf ++ txt))
  = Ok (buf ++ match skip with
               | O => sub txt (prev - 1) (length pre)
               | S _ => []
               end ++ rewriteSeg tl new skip rest).
Proof.
  induction rest as [|c r IH]; intros pre skip buf prev Htxt Hprev H0 HS.
  - destruct skip as [|k]; [|exfalso; destruct (HS ltac:(discriminate)) as [_ HS']; simpl in HS'; lia].
    rewrite app_nil_r in Htxt. subst pre. simpl.
    specialize (H0 eq_refl). rewrite app_nil_r.
    destruct (1 <? prev) eqn:E.
    + unfold sliceFrom. rewrite slice_ok by lia. reflexivity.
    + apply Nat.ltb_ge in E. replace (prev - 1) with 0 by lia.
      rewrite sub_all. reflexivity.
  - assert (Hlen : length (pre ++ [c]) = S (length pre))
      by (rewrite length_app; simpl; lia).
    assert (Htxt' : txt = (pre ++ [c]) ++ r) by (rewrite <- app_assoc; exact Htxt).
    destruct skip as [|[|k]].
    + specialize (H0 eq_refl).
      simpl findAllFrom. simpl rewriteSeg.
      destruct (matchHere (ParamRegExp tl) (c :: r)) as [n|] eqn:E.
      * apply matchHere_bounds in E. simpl in E.
        simpl forRange.
        rewrite slice_ok by (subst txt; rewrite ?length_app; simpl; lia).
        simpl bind.
        destruct n as [|[|n]]; try lia.
        replace (S (S n) - 1) with (S n) by lia.
        rewrite <- Hlen.
        rewrite (IH (pre ++ [c]) (S n) _ (length pre + S (S n)) Htxt').
        -- f_equal. rewrite Nat.add_1_r. subst txt. rewrite sub_snoc by lia.
           rewrite <- !app_assoc. reflexivity.
        -- lia.
        -- discriminate.
        -- intros _. rewrite Hlen. lia.
      * rewrite <- Hlen.
        rewrite (IH (pre ++ [c]) 0 buf prev Htxt' Hprev).
        -- f_equal. rewrite Hlen. subst txt. rewrite sub_snoc by lia.
           rewrite <- !app_assoc. reflexivity.
        -- intros _. rewrite Hlen. lia.
        -- intros H; contradiction.
    + destruct (HS ltac:(discriminate)) as [Hp Hk].
      simpl findAllFrom. simpl rewriteSeg.
      rewrite <- Hlen.
      rewrite (IH (pre ++ [c]) 0 buf prev Htxt' Hprev).
      * f_equal. rewrite Hlen. subst txt.
        replace (prev - 1) with (length pre) by lia.
        rewrite sub_snoc by lia. rewrite sub_empty. reflexivity.
      * intros _. rewrite Hlen. lia.
      * intros H; contradiction.
    + destruct (HS ltac:(discriminate)) as [Hp Hk].
      simpl findAllFrom. simpl rewriteSeg.
      rewrite <- Hlen.
      rewrite (IH (pre ++ [c]) (S k) buf prev Htxt' Hprev).
      * reflexivity.
      * discriminate.
      * intros _. rewrite Hlen. simpl in Hk. lia.
Qed.

(** [replaceParameterNameInSubstring] never panics, and appends the
    single-pass rewriting of [s] to the buffer. *)
Lemma replaceParameterNameInSubstring_eq (s old new buf tl : gostring) :
  replaceParameterNameInSubstring s old new buf (ParamRegExp tl)
  = Ok (buf ++ rewriteSeg tl new 0 s).
Proof.
  unfold replaceParameterNameInSubstring, FindAllStringIndex.
  pose proof (segment_loop tl new s s [] 0 buf 1 eq_refl) as H.
  change (length (@nil ascii)) with 0 in H.
  rewrite H; [reflexivity | lia | lia | intros E; contradiction].
Qed.

Lemma sub_firstn (pre rest : gostring) (n : nat) :
  n <= length rest -> sub (pre ++ rest) (length pre) (length pre + n) = firstn n rest.
Proof.
  intros H. unfold sub. rewrite skipn_app, skipn_all, Nat.sub_diag. simpl.
  f_equal. lia.
Qed.

(** The loop of [replaceParameterName] over the command [txt], taken up
    when [pre] has been read; [done] is the buffer without the bytes of the
    quoted region in progress that are still to be read. *)
Lemma command_loop (tl old new txt : gostring) :
  forall (rest pre : gostring) (skip : nat) (buf done : gostring) (prev : nat),
  txt = pre ++ rest ->
  (buf = [] -> prev = 0) ->
  (skip = 0 -> prev <= length pre /\ done = buf) ->
  (skip <> 0 -> prev = length pre + skip /\ skip <= length rest
                /\ buf = done ++ firstn skip rest) ->
  (try '(buf, prevQuoteEnd) <-
     forRange (fun '(buf, prevQuoteEnd) '(quoteStart, quoteEnd) =>
                 try seg <- slice txt prevQuoteEnd quoteStart ;;
                 try buf <- replaceParameterNameInSubstring seg old new buf (ParamRegExp tl) ;;
                 try quoted <- slice txt quoteStart quoteEnd ;;
                 Ok (buf ++ quoted, quoteEnd))
              (findAllFrom quoteRegExp (length pre) skip rest) (buf, prev) ;;
   if 0 <? length buf then
     try rest <- sliceFrom txt prevQuoteEnd ;;
     replaceParameterNameInSubstring rest old new buf (ParamRegExp tl)
   else replaceParameterNameInSubstring txt old new buf (ParamRegExp tl))
  = Ok (done ++ rewriteCommand tl new
                  match skip with
                  | O => sub txt prev (length pre)
                  | S _ => []
                  end skip rest).
Proof.
  induction rest as [|c r IH]; intros pre skip buf done prev Htxt Hbuf H0 HS.
  - destruct skip as [|k];
      [|exfalso; destruct (HS ltac:(discriminate)) as (_ & HS' & _); simpl in HS'; lia].
    rewrite app_nil_r in Htxt. subst pre. simpl.
    destruct (H0 eq_refl) as [Hp ->].
    destruct (0 <? length buf) eqn:E.
    + unfold sliceFrom. rewrite slice_ok by lia. simpl.
      apply replaceParameterNameInSubstring_eq.
    + apply Nat.ltb_ge in E. destruct buf; [|simpl in E; lia].
      rewrite (Hbuf eq_refl), sub_all.
      apply replaceParameterNameInSubstring_eq.
  - assert (Hlen : length (pre ++ [c]) = S (length pre))
      by (rewrite length_app; simpl; lia).
    assert (Htxt' : txt = (pre ++ [c]) ++ r) by (rewrite <- app_assoc; exact Htxt).
    destruct skip as [|k].
    + destruct (H0 eq_refl) as [Hp ->].
      simpl findAllFrom. simpl rewriteCommand.
      destruct (matchHere quoteRegExp (c :: r)) as [n|] eqn:E.
      * apply matchHere_bounds in E. simpl in E.
        simpl forRange.
        rewrite slice_ok by (subst txt; rewrite ?length_app; simpl; lia).
        simpl bind. rewrite replaceParameterNameInSubstring_eq. simpl bind.
        rewrite slice_ok by (subst txt; rewrite ?length_app; simpl; lia).
        simpl bind.
        destruct n as [|[|n]]; try lia.
        replace (S (S n) - 1) with (S n) by lia.
        rewrite <- Hlen.
        rewrite (IH (pre ++ [c]) (S n) _
                    ((buf ++ rewriteSeg tl new 0 (sub txt prev (length pre))) ++ [c])
                    (length pre + S (S n)) Htxt').
        -- rewrite <- !app_assoc. reflexivity.
        -- intros H. apply (f_equal (@length ascii)) in H.
           rewrite !length_app in H. subst txt.
           rewrite sub_firstn in H by (simpl; lia).
           rewrite length_firstn in H. simpl in H. lia.
        -- discriminate.
        -- intros _. rewrite Hlen. repeat split; try lia.
           subst txt. rewrite sub_firstn by (simpl; lia).
           simpl. rewrite <- !app_assoc. reflexivity.
      * rewrite <- Hlen.
        rewrite (IH (pre ++ [c]) 0 buf buf prev Htxt' Hbuf).
        -- rewrite Hlen. subst txt. rewrite sub_snoc by lia. reflexivity.
        -- intros _. rewrite Hlen. split; [lia | reflexivity].
        -- intros H; contradiction.
    + destruct (HS ltac:(discriminate)) as (Hp & Hk & Hb).
      simpl findAllFrom. simpl rewriteCommand. simpl in Hb, Hk.
      rewrite <- Hlen.
      destruct k as [|k].
      * rewrite (IH (pre ++ [c]) 0 buf buf prev Htxt' Hbuf).
        -- rewrite Hlen. replace prev with (S (length pre)) by lia.
           rewrite sub_empty. subst buf. rewrite <- app_assoc. reflexivity.
        -- intros _. rewrite Hlen. split; [lia | reflexivity].
        -- intros H; contradiction.
      * rewrite (IH (pre ++ [c]) (S k) buf (done ++ [c]) prev Htxt' Hbuf).
        -- rewrite <- app_assoc. reflexivity.
        -- discriminate.
        -- intros _. rewrite Hlen. repeat split; try lia.
           subst buf. rewrite <- app_assoc. reflexivity.
Qed.

Lemma sliceFrom_tail (c0 : ascii) (tl : gostring) : sliceFrom (c0 :: tl) 1 = Ok tl.
Proof.
  unfold sliceFrom. rewrite slice_ok by (simpl; lia).
  unfold sub. simpl. rewrite Nat.sub_0_r, firstn_all. reflexivity.
Qed.

(** [replaceParameterName] on a name with a literal tail: no panic, and
    the result is the single-pass rewriting of the command. *)
Lemma replaceParameterName_eq (command new tl : gostring) (c0 : ascii) :
  forallb isLiteral tl = true ->
  replaceParameterName command (c0 :: tl) new = Ok (rewriteCommand tl new [] 0 command).
Proof.
  intros Hlit. unfold replaceParameterName.
  rewrite sliceFrom_tail. simpl bind.
  unfold compileParamRegExp. rewrite Hlit. simpl bind.
  unfold FindAllStringIndex.
  pose proof (command_loop tl (c0 :: tl) new command command [] 0 [] [] 0 eq_refl) as H.
  change (length (@nil ascii)) with 0 in H.
  etransitivity.
  - apply H.
    + reflexivity.
    + intros _. split; [lia | reflexivity].
    + intros E; contradiction.
  - rewrite sub_empty. reflexivity.
Qed.

(** The two other outcomes of [replaceParameterName]. *)
Lemma replaceParameterName_empty_name (command new : gostring) :
  replaceParameterName command [] new = Panic sliceBoundsOutOfRange.
Proof. reflexivity. Qed.

Lemma replaceParameterName_beyond (command new tl : gostring) (c0 : ascii) :
  forallb isLiteral tl = false ->
  replaceParameterName command (c0 :: tl) new = Beyond.
Proof.
  intros Hlit. unfold replaceParameterName.
  rewrite sliceFrom_tail. simpl bind.
  unfold compileParamRegExp. rewrite Hlit. reflexivity.
Qed.

(** ** Quoted regions *)

Lemma noQuote_app (a b : gostring) : noQuote (a ++ b) = noQuote a && noQuote b.
Proof. apply forallb_app. Qed.

Lemma matchHere_quote_other (c : ascii) (r : gostring) :
  isQuote c = false -> matchHere quoteRegExp (c :: r) = None.
Proof. intros H. unfold matchHere. rewrite H. reflexivity. Qed.

Lemma upToQuote_closing (q post : gostring) :
  noQuote q = true -> upToQuote (q ++ quote :: post) = Some (S (length q)).
Proof.
  induction q as [|c q IH]; simpl; intros H.
  - reflexivity.
  - apply andb_true_iff in H as [Hc Hq]. apply negb_true_iff in Hc.
    rewrite Hc, (IH Hq). reflexivity.
Qed.

Lemma matchHere_quote_region (q post : gostring) :
  noQuote q = true ->
  matchHere quoteRegExp (quote :: q ++ quote :: post) = Some (S (S (length q))).
Proof.
  intros H. unfold matchHere. simpl. rewrite (upToQuote_closing _ _ H). reflexivity.
Qed.

(** Unquoted text joins the stretch being read. *)
Lemma rewriteCommand_unquoted (tl new u : gostring) :
  noQuote u = true ->
  forall seg s, rewriteCommand tl new seg 0 (u ++ s) = rewriteCommand tl new (seg ++ u) 0 s.
Proof.
  induction u as [|c u IH]; intros H seg s.
  - rewrite app_nil_r. reflexivity.
  - simpl in H. apply andb_true_iff in H as [Hc Hu]. apply negb_true_iff in Hc.
    simpl. rewrite (matchHere_quote_other _ _ Hc), (IH Hu).
    rewrite <- app_assoc. reflexivity.
Qed.

(** The bytes of a quoted region go to the output as they are. *)
Lemma rewriteCommand_skip (tl new : gostring) (x : gostring) :
  forall (c : ascii) (seg post : gostring),
  rewriteCommand tl new seg (S (length x)) (c :: x ++ post)
  = c :: x ++ rewriteCommand tl new [] 0 post.
Proof.
  induction x as [|y x IH]; intros c seg post; simpl.
  - reflexivity.
  - f_equal. apply (IH y []).
Qed.

Lemma rewriteCommand_region (tl new q : gostring) :
  noQuote q = true ->
  forall seg post,
  rewriteCommand tl new seg 0 (quote :: q ++ quote :: post)
  = rewriteSeg tl new 0 seg ++ quote :: q ++ quote :: rewriteCommand tl new [] 0 post.
Proof.
  intros H seg post.
  change (rewriteCommand tl new seg 0 (quote :: q ++ quote :: post))
    with (match matchHere quoteRegExp (quote :: q ++ quote :: post) with
          | Some n => rewriteSeg tl new 0 seg
                      ++ quote :: rewriteCommand tl new [] (n - 1) (q ++ quote :: post)
          | None => rewriteCommand tl new (seg ++ [quote]) 0 (q ++ quote :: post)
          end).
  rewrite (matchHere_quote_region _ _ H).
  replace (S (S (length q)) - 1) with (S (length q)) by lia.
  f_equal. f_equal.
  destruct q as [|c q].
  - reflexivity.
  - simpl length. simpl app.
    replace (c :: q ++ quote :: post) with (c :: (q ++ [quote]) ++ post)
      by (rewrite <- app_assoc; reflexivity).
    replace (S (S (length q))) with (S (length (q ++ [quote])))
      by (rewrite length_app; simpl; lia).
    rewrite rewriteCommand_skip. rewrite <- app_assoc. reflexivity.
Qed.

Lemma isQuote_quote (c : ascii) : isQuote c = true -> c = quote.
Proof. unfold isQuote. intros H. apply Ascii.eqb_eq in H. exact H. Qed.

Lemma closedFrom_inside (s : gostring) :
  closedFrom true s = true ->
  exists q rest, s = q ++ quote :: rest /\ noQuote q = true /\ closedFrom false rest = true.
Proof.
  induction s as [|c r IH]; simpl; [discriminate|].
  destruct (isQuote c) eqn:E.
  - intros H. exists [], r. apply isQuote_quote in E. subst c. auto.
  - intros H. destruct (IH H) as (q & rest & -> & Hq & Hr).
    exists (c :: q), rest. simpl. rewrite E. auto.
Qed.

Lemma Closed_cons (c : ascii) (s : gostring) :
  isQuote c = false -> Closed s -> Closed (c :: s).
Proof.
  intros Hc H. destruct H as [u Hu | u q rest Hu Hq Hr].
  - apply Closed_unquoted. simpl. rewrite Hc, Hu. reflexivity.
  - apply (Closed_region (c :: u) q rest); auto. simpl. rewrite Hc, Hu. reflexivity.
Qed.

Lemma quotesClosed_Closed (s : gostring) : quotesClosed s = true -> Closed s.
Proof.
  unfold quotesClosed.
  induction s as [s IH] using (induction_ltof1 _ (@length ascii)). unfold ltof in IH.
  destruct s as [|c r]; intros H.
  - apply Closed_unquoted. reflexivity.
  - simpl in H. destruct (isQuote c) eqn:E.
    + simpl in H. destruct (closedFrom_inside _ H) as (q & rest & -> & Hq & Hr).
      apply isQuote_quote in E. subst c.
      apply (Closed_region [] q rest); auto.
      apply IH; [|exact Hr]. simpl. rewrite length_app. simpl. lia.
    + apply Closed_cons; [exact E|]. apply IH; [simpl; lia | exact H].
Qed.

(** A closed quoted region splits the rewriting of a command in three. *)
Lemma rewriteCommand_split (tl new pre : gostring) :
  Closed pre ->
  forall q post seg, noQuote q = true ->
  rewriteCommand tl new seg 0 (pre ++ quote :: q ++ quote :: post)
  = rewriteCommand tl new seg 0 pre ++ quote :: q ++ quote :: rewriteCommand tl new [] 0 post.
Proof.
  induction 1 as [u Hu | u q1 rest Hu Hq1 Hrest IH]; intros q post seg Hq.
  - rewrite (rewriteCommand_unquoted _ _ _ Hu), (rewriteCommand_region _ _ _ Hq).
    rewrite <- (app_nil_r u) at 2.
    rewrite (rewriteCommand_unquoted _ _ _ Hu). reflexivity.
  - replace ((u ++ quote :: q1 ++ quote :: rest) ++ quote :: q ++ quote :: post)
      with (u ++ quote :: q1 ++ quote :: (rest ++ quote :: q ++ quote :: post))
      by (rewrite <- !app_assoc; simpl; rewrite <- !app_assoc; reflexivity).
    rewrite !(rewriteCommand_unquoted _ _ _ Hu).
    rewrite !(rewriteCommand_region _ _ _ Hq1).
    rewrite (IH _ _ _ Hq).
    rewrite <- !app_assoc. simpl. rewrite <- !app_assoc. reflexivity.
Qed.

(** ** The first parameter of a stretch *)


Lemma matchHere_param_no_sigil (tl : gostring) (c g : ascii) (r : gostring) :
  isSigil g = false -> matchHere (ParamRegExp tl) (c :: g :: r) = None.
Proof. intros H. unfold matchHere. rewrite H, andb_false_r. reflexivity. Qed.

(** A parameter followed by a delimiter. *)
Lemma matchHere_param_delim (tl : gostring) (d g e : ascii) (x : gostring) :
  isDelim d = true -> isSigil g = true -> isDelim e = true ->
  matchHere (ParamRegExp tl) (d :: g :: tl ++ e :: x) = Some (3 + length tl).
Proof.
  intros Hd Hg He. unfold matchHere.
  rewrite Hd, Hg, stripPrefix_app, He. reflexivity.
Qed.

(** A parameter at the end of the text. *)
Lemma matchHere_param_end (tl : gostring) (d g : ascii) :
  isDelim d = true -> isSigil g = true ->
  matchHere (ParamRegExp tl) (d :: g :: tl) = Some (2 + length tl).
Proof.
  intros Hd Hg. unfold matchHere.
  assert (E : stripPrefix tl tl = Some [])
    by (apply stripPrefix_Some; rewrite app_nil_r; reflexivity).
  rewrite Hd, Hg, E. reflexivity.
Qed.


(** The bytes of a match are dropped, the last one is kept. *)
Lemma rewriteSeg_skip (tl new y : gostring) (c : ascii) (x : gostring) :
  rewriteSeg tl new (S (length y)) (y ++ c :: x) = c :: rewriteSeg tl new 0 x.
Proof.
  induction y as [|b y IH]; simpl.
  - reflexivity.
  - destruct y; exact IH.
Qed.



(** ** Successive parameters *)

Lemma replaceParameterName_plain (command old new : gostring) :
  plainName old = true ->
  replaceParameterName command old new = Ok (rewriteCommand (tail old) new [] 0 command).
Proof.
  destruct old as [|c0 tl]; simpl; [discriminate|].
  apply replaceParameterName_eq.
Qed.

Lemma adjustFrom_eq (params : list Param) :
  plainNames params = true ->
  forall i command, adjustFrom i command params = Ok (rewriteAll i command params).
Proof.
  induction params as [|p rest IH]; simpl; intros H i command.
  - reflexivity.
  - apply andb_true_iff in H as [Hp Hrest].
    rewrite (replaceParameterName_plain _ _ _ Hp). simpl. apply IH. exact Hrest.
Qed.

Lemma adjustFrom_app (ps qs : list Param) :
  forall i command,
  adjustFrom i command (ps ++ qs)
  = try c <- adjustFrom i command ps ;; adjustFrom (i + length ps) c qs.
Proof.
  induction ps as [|p ps IH]; simpl; intros i command.
  - rewrite Nat.add_0_r. reflexivity.
  - destruct (replaceParameterName command (name p) (positional i p)); simpl;
      [|reflexivity|reflexivity].
    rewrite IH. replace (S i + length ps) with (i + S (length ps)) by lia. reflexivity.
Qed.

Lemma rewriteSeg_noQuote (tl new : gostring) :
  noQuote new = true ->
  forall s k, noQuote s = true -> noQuote (rewriteSeg tl new k s) = true.
Proof.
  intros Hnew. induction s as [|c r IH]; intros k H.
  - reflexivity.
  - simpl in H. apply andb_true_iff in H as [Hc Hr].
    destruct k as [|[|k]]; simpl.
    + destruct (matchHere (ParamRegExp tl) (c :: r)); simpl; rewrite Hc; simpl.
      * change (forallb (fun c => negb (isQuote c)) (new ++ rewriteSeg tl new (n - 1) r))
          with (noQuote (new ++ rewriteSeg tl new (n - 1) r)).
        rewrite noQuote_app, Hnew. simpl. apply IH, Hr.
      * apply IH, Hr.
    + rewrite Hc. simpl. apply IH, Hr.
    + apply IH, Hr.
Qed.

Lemma rewriteCommand_Closed (tl new pre : gostring) :
  noQuote new = true -> Closed pre ->
  forall seg, noQuote seg = true -> Closed (rewriteCommand tl new seg 0 pre).
Proof.
  intros Hnew. induction 1 as [u Hu | u q rest Hu Hq Hrest IH]; intros seg Hseg.
  - rewrite <- (app_nil_r u), (rewriteCommand_unquoted _ _ _ Hu). simpl.
    apply Closed_unquoted, rewriteSeg_noQuote; [exact Hnew|].
    rewrite noQuote_app, Hseg, Hu. reflexivity.
  - rewrite (rewriteCommand_unquoted _ _ _ Hu), (rewriteCommand_region _ _ _ Hq).
    apply Closed_region.
    + apply rewriteSeg_noQuote; [exact Hnew|]. rewrite noQuote_app, Hseg, Hu. reflexivity.
    + exact Hq.
    + apply IH. reflexivity.
Qed.

Lemma uint_noQuote (d : Decimal.uint) : noQuote (str (NilEmpty.string_of_uint d)) = true.
Proof. induction d; simpl; try reflexivity; exact IHd. Qed.

Lemma positional_noQuote (i : nat) (p : Param) :
  noQuote (customTypeName p) = true -> noQuote (positional i p) = true.
Proof.
  intros H. unfold positional, castOf, decimal.
  rewrite !noQuote_app, uint_noQuote.
  destruct (customTypeName p) as [|c t]; [reflexivity|].
  rewrite noQuote_app, H. reflexivity.
Qed.

Lemma rewriteAll_split (params : list Param) :
  quoteFreeCasts params = true ->
  forall i pre q post, Closed pre -> noQuote q = true ->
  rewriteAll i (pre ++ quote :: q ++ quote :: post) params
  = rewriteAll i pre params ++ quote :: q ++ quote :: rewriteAll i post params.
Proof.
  induction params as [|p rest IH]; simpl; intros H i pre q post Hpre Hq.
  - reflexivity.
  - apply andb_true_iff in H as [Hp Hrest].
    rewrite (rewriteCommand_split _ _ _ Hpre _ _ _ Hq).
    apply (IH Hrest); [|exact Hq].
    apply rewriteCommand_Closed; [apply positional_noQuote, Hp | exact Hpre | reflexivity].
Qed.

(** ** Which occurrences match *)

Lemma matchHere_param_spec (tl s : gostring) (n : nat) :
  matchHere (ParamRegExp tl) s = Some n <-> boundedAt tl s 0 n.
Proof.
  split.
  - unfold matchHere. destruct s as [|d [|g r]]; try discriminate.
    destruct (isDelim d) eqn:Hd; [|discriminate].
    destruct (isSigil g) eqn:Hg; [|discriminate]. simpl.
    destruct (stripPrefix tl r) as [[|e w]|] eqn:E; try discriminate.
    + intros [= <-]. apply stripPrefix_Some in E.
      exists [], d, g, []. subst r. repeat split; auto.
    + destruct (isDelim e) eqn:He; [|discriminate].
      intros [= <-]. apply stripPrefix_Some in E.
      exists [], d, g, (e :: w). subst r. repeat split; auto.
      right. exists e, w. auto.
  - intros (u & d & g & w & -> & Hu & Hd & Hg & H).
    destruct u; [|discriminate]. simpl.
    destruct H as [[-> ->] | (e & w' & -> & He & ->)].
    + rewrite app_nil_r. apply matchHere_param_end; assumption.
    + apply matchHere_param_delim; assumption.
Qed.

Lemma boundedAt_shift (tl pre rest : gostring) (n : nat) :
  boundedAt tl rest 0 n -> boundedAt tl (pre ++ rest) (length pre) (length pre + n).
Proof.
  intros (u & d & g & w & -> & Hu & Hd & Hg & H).
  destruct u; [|discriminate].
  exists pre, d, g, w. repeat split; auto.
  destruct H as [[-> ->] | (e & w' & -> & He & ->)].
  - left. split; [reflexivity | lia].
  - right. exists e, w'. repeat split; auto. lia.
Qed.

Lemma boundedAt_here (tl pre rest : gostring) (b : nat) :
  boundedAt tl (pre ++ rest) (length pre) b ->
  boundedAt tl rest 0 (b - length pre) /\ length pre <= b.
Proof.
  intros (u & d & g & w & E & Hu & Hd & Hg & H).
  apply app_inj_1 in E as [-> ->]; [|congruence].
  split.
  - exists [], d, g, w. repeat split; auto.
    destruct H as [[-> ->] | (e & w' & -> & He & ->)].
    + left. split; [reflexivity | lia].
    + right. exists e, w'. repeat split; auto. lia.
  - destruct H as [[_ ->] | (e & w' & _ & _ & ->)]; lia.
Qed.

Lemma boundedAt_inside (tl s : gostring) (a b : nat) :
  boundedAt tl s a b -> a < length s.
Proof.
  intros (u & d & g & w & -> & Hu & _). rewrite length_app. simpl. lia.
Qed.

(** Every match found is a bounded occurrence. *)
Lemma findAllFrom_sound (tl s : gostring) :
  forall (rest pre : gostring) (skip a b : nat),
  s = pre ++ rest ->
  In (a, b) (findAllFrom (ParamRegExp tl) (length pre) skip rest) ->
  boundedAt tl s a b.
Proof.
  induction rest as [|c r IH]; intros pre skip a b Hs Hin; [contradiction|].
  assert (Hlen : length (pre ++ [c]) = S (length pre))
    by (rewrite length_app; simpl; lia).
  assert (Hs' : s = (pre ++ [c]) ++ r) by (rewrite <- app_assoc; exact Hs).
  simpl in Hin. destruct skip as [|k].
  - destruct (matchHere (ParamRegExp tl) (c :: r)) as [n|] eqn:E.
    + destruct Hin as [[= <- <-] | Hin].
      * subst s. apply boundedAt_shift, matchHere_param_spec, E.
      * rewrite <- Hlen in Hin. apply (IH _ _ _ _ Hs' Hin).
    + rewrite <- Hlen in Hin. apply (IH _ _ _ _ Hs' Hin).
  - rewrite <- Hlen in Hin. apply (IH _ _ _ _ Hs' Hin).
Qed.

(** Every bounded occurrence that begins at or after the point the search
    has reached is matched, or begins inside a match. *)
Lemma findAllFrom_complete (tl s : gostring) (a b : nat) :
  boundedAt tl s a b ->
  forall (rest pre : gostring) (skip : nat),
  s = pre ++ rest -> length pre + skip <= a ->
  exists a' b', In (a', b') (findAllFrom (ParamRegExp tl) (length pre) skip rest)
                /\ a' <= a < b' /\ (a' = a -> b' = b).
Proof.
  intros Hb. induction rest as [|c r IH]; intros pre skip Hs Hle.
  - apply boundedAt_inside in Hb. subst s. rewrite app_nil_r in Hb. lia.
  - assert (Hlen : length (pre ++ [c]) = S (length pre))
      by (rewrite length_app; simpl; lia).
    assert (Hs' : s = (pre ++ [c]) ++ r) by (rewrite <- app_assoc; exact Hs).
    simpl. destruct skip as [|k].
    + destruct (matchHere (ParamRegExp tl) (c :: r)) as [n|] eqn:E.
      * destruct (Nat.lt_ge_cases a (length pre + n)) as [Hlt | Hge].
        -- exists (length pre), (length pre + n). split; [left; reflexivity|].
           split; [lia|]. intros Ha. subst a s.
           apply boundedAt_here in Hb as [Hb Hle'].
           apply matchHere_param_spec in Hb. rewrite E in Hb. injection Hb. lia.
        -- pose proof (matchHere_bounds _ _ _ E) as Hn.
           destruct (IH (pre ++ [c]) (n - 1) Hs') as (a' & b' & Hin & H1 & H2);
             [rewrite Hlen; lia|].
           exists a', b'. rewrite Hlen in Hin. split; [right; exact Hin | auto].
      * assert (Hne : a <> length pre).
        { intros Ha. subst a s. apply boundedAt_here in Hb as [Hb _].
          apply matchHere_param_spec in Hb. congruence. }
        destruct (IH (pre ++ [c]) 0 Hs') as (a' & b' & Hin & H1 & H2);
          [rewrite Hlen; lia|].
        exists a', b'. rewrite Hlen in Hin. auto.
    + destruct (IH (pre ++ [c]) k Hs') as (a' & b' & Hin & H1 & H2);
        [rewrite Hlen; lia|].
      exists a', b'. rewrite Hlen in Hin. auto.
Qed.

(** ** Every match of a stretch *)

Lemma rewriteCommand_Regions (tl new pre : gostring) :
  Regions pre ->
  forall x, rewriteCommand tl new [] 0 (pre ++ x)
            = rewriteCommand tl new [] 0 pre ++ rewriteCommand tl new [] 0 x.
Proof.
  induction 1 as [|u q rest Hu Hq Hrest IH]; intros x.
  - reflexivity.
  - replace ((u ++ quote :: q ++ quote :: rest) ++ x)
      with (u ++ quote :: q ++ quote :: (rest ++ x))
      by (rewrite <- !app_assoc; simpl; rewrite <- !app_assoc; reflexivity).
    rewrite !(rewriteCommand_unquoted _ _ _ Hu), !(rewriteCommand_region _ _ _ Hq), IH.
    rewrite <- !app_assoc. simpl. rewrite <- !app_assoc. reflexivity.
Qed.

Lemma findAllFrom_nil_offset (re : Regexp) (s : gostring) :
  forall off off' skip, findAllFrom re off skip s = [] -> findAllFrom re off' skip s = [].
Proof.
  induction s as [|c r IH]; intros off off' skip H; [reflexivity|].
  simpl in *. destruct skip as [|k].
  - destruct (matchHere re (c :: r)); [discriminate|]. apply (IH _ _ _ H).
  - apply (IH _ _ _ H).
Qed.

Lemma findAllFrom_nil_skipn (re : Regexp) (s : gostring) :
  forall off k, findAllFrom re off 0 s = [] -> findAllFrom re off 0 (skipn k s) = [].
Proof.
  induction s as [|c r IH]; intros off k H.
  - rewrite skipn_nil. reflexivity.
  - destruct k as [|k]; [exact H|]. simpl in *.
    destruct (matchHere re (c :: r)); [discriminate|].
    apply IH, (findAllFrom_nil_offset _ _ _ _ _ H).
Qed.

Lemma rewriteCommand_no_region (tl new s : gostring) :
  forall off seg, findAllFrom quoteRegExp off 0 s = [] ->
  rewriteCommand tl new seg 0 s = rewriteSeg tl new 0 (seg ++ s).
Proof.
  induction s as [|c r IH]; intros off seg H.
  - rewrite app_nil_r. reflexivity.
  - simpl in *. destruct (matchHere quoteRegExp (c :: r)); [discriminate|].
    rewrite (IH _ _ H), <- app_assoc. reflexivity.
Qed.

(** An unquoted stretch is rewritten on its own. *)
Lemma rewriteCommand_stretch (tl new pre s post : gostring) :
  stretchOf pre s post ->
  rewriteCommand tl new [] 0 (pre ++ s ++ post)
  = rewriteCommand tl new [] 0 pre ++ rewriteSeg tl new 0 s
    ++ rewriteCommand tl new [] 0 post.
Proof.
  intros [Hpre [[Hs (q & post' & Hq & ->)] | [Hs ->]]];
    rewrite (rewriteCommand_Regions _ _ _ Hpre); f_equal.
  - rewrite (rewriteCommand_unquoted _ _ _ Hs), !(rewriteCommand_region _ _ _ Hq).
    reflexivity.
  - rewrite !app_nil_r. apply (rewriteCommand_no_region _ _ _ 0 [] Hs).
Qed.

(** The pass arrives at the start of every match with no match in
    progress. *)
Lemma rewriteSeg_match (tl new : gostring) (a b : nat) :
  forall rest off skip,
  In (a, b) (findAllFrom (ParamRegExp tl) off skip rest) ->
  exists front,
    off <= a /\
    matchHere (ParamRegExp tl) (skipn (a - off) rest) = Some (b - a) /\
    rewriteSeg tl new skip rest = front ++ rewriteSeg tl new 0 (skipn (a - off) rest).
Proof.
  induction rest as [|c r IH]; intros off skip Hin; [contradiction|].
  simpl in Hin. destruct skip as [|k].
  - destruct (matchHere (ParamRegExp tl) (c :: r)) as [n|] eqn:E.
    + destruct Hin as [[= <- <-] | Hin].
      * exists []. rewrite Nat.sub_diag. simpl skipn.
        replace (off + n - off) with n by lia. auto.
      * destruct (IH _ _ Hin) as (front & Hle & Hm & Hr).
        exists (c :: new ++ front).
        replace (a - off) with (S (a - S off)) by lia. simpl skipn.
        split; [lia|]. split; [exact Hm|].
        simpl. rewrite E, Hr, <- app_assoc. reflexivity.
    + destruct (IH _ _ Hin) as (front & Hle & Hm & Hr).
      exists (c :: front).
      replace (a - off) with (S (a - S off)) by lia. simpl skipn.
      split; [lia|]. split; [exact Hm|].
      simpl. rewrite E, Hr. reflexivity.
  - destruct (IH _ _ Hin) as (front & Hle & Hm & Hr).
    replace (a - off) with (S (a - S off)) by lia. simpl skipn.
    destruct k as [|k].
    + exists (c :: front). split; [lia|]. split; [exact Hm|].
      simpl. rewrite Hr. reflexivity.
    + exists front. split; [lia|]. split; [exact Hm|]. exact Hr.
Qed.

(** A match closed by a delimiter: the text there, and its rewriting. *)
Lemma matchHere_param_closed (tl t : gostring) :
  matchHere (ParamRegExp tl) t = Some (3 + length tl) ->
  exists d g e x,
    t = d :: g :: tl ++ e :: x /\
    isDelim d = true /\ isSigil g = true /\ isDelim e = true.
Proof.
  intros H. apply matchHere_param_spec in H.
  destruct H as (u & d & g & w & -> & Hu & Hd & Hg & H).
  destruct u; [|discriminate].
  destruct H as [[_ H] | (e & w' & -> & He & _)]; [simpl in H; lia|].
  exists d, g, e, w'. auto.
Qed.

Lemma rewriteSeg_here (tl new : gostring) (d g e : ascii) (x : gostring) :
  isDelim d = true -> isSigil g = true -> isDelim e = true ->
  rewriteSeg tl new 0 (d :: g :: tl ++ e :: x) = d :: new ++ e :: rewriteSeg tl new 0 x.
Proof.
  intros Hd Hg He.
  change (rewriteSeg tl new 0 (d :: g :: tl ++ e :: x))
    with (match matchHere (ParamRegExp tl) (d :: g :: tl ++ e :: x) with
          | Some n => d :: new ++ rewriteSeg tl new (n - 1) (g :: tl ++ e :: x)
          | None => d :: rewriteSeg tl new 0 (g :: tl ++ e :: x)
          end).
  rewrite (matchHere_param_delim _ _ _ _ _ Hd Hg He).
  replace (3 + length tl - 1) with (S (length (g :: tl))) by (simpl; lia).
  change (g :: tl ++ e :: x) with ((g :: tl) ++ e :: x).
  rewrite rewriteSeg_skip. reflexivity.
Qed.

Lemma skipn_cons_nth_error {A : Type} (l t : list A) (n : nat) (x : A) :
  skipn n l = x :: t -> nth_error l n = Some x.
Proof.
  revert l. induction n as [|n IH]; intros [|y l] H; simpl in *; try discriminate.
  - injection H as -> _. reflexivity.
  - apply IH, H.
Qed.

Lemma noQuote_skipn (s : gostring) (k : nat) : noQuote s = true -> noQuote (skipn k s) = true.
Proof.
  revert k. induction s as [|c r IH]; intros [|k] H; simpl in *; auto.
  apply andb_true_iff in H as [_ H]. apply IH, H.
Qed.

Lemma skipn_occurrence (tl x : gostring) (d g e : ascii) :
  skipn (2 + length tl) (d :: g :: tl ++ e :: x) = e :: x.
Proof. simpl. induction tl as [|c tl IH]; simpl; auto. Qed.

(** ** The rewriter: the properties of the specification *)

(** C1, as amended.  For every parameter list with plain names whose custom
    type names hold no single quote, a closed quoted region of the command
    is copied as it is, and the texts before and after it are rewritten as
    they would be on their own. *)
Theorem quoted_region_copied_verbatim
    (params : list Param) (pre q post : gostring) :
  plainNames params = true -> quoteFreeCasts params = true ->
  quotesClosed pre = true -> noQuote q = true ->
  exists a b,
    adjustCommand pre params = Ok a /\
    adjustCommand post params = Ok b /\
    adjustCommand (pre ++ quote :: q ++ quote :: post) params
    = Ok (a ++ quote :: q ++ quote :: b).
Proof.
  intros Hnames Hcasts Hpre Hq.
  exists (rewriteAll 0 pre params), (rewriteAll 0 post params).
  unfold adjustCommand. rewrite !(adjustFrom_eq _ Hnames).
  repeat split.
  rewrite (rewriteAll_split _ Hcasts); [reflexivity | | exact Hq].
  apply quotesClosed_Closed, Hpre.
Qed.

(** The example of the specification: ["select ':id' as x"] with a
    parameter [:id] is returned unchanged. *)
Lemma quoted_region_copied_verbatim_witness :
  adjustCommand (str "select ':id' as x") [idParam] = Ok (str "select ':id' as x").
Proof.
  destruct (quoted_region_copied_verbatim [idParam] (str "select ") (str ":id") (str " as x")
              eq_refl eq_refl eq_refl eq_refl) as (a & b & Ha & Hb & H).
  vm_compute in Ha. vm_compute in Hb.
  injection Ha as <-. injection Hb as <-. exact H.
Defined.

(** C1 as stated fails: a custom type name with a quote shifts the quoted
    regions for the parameters after it.  [' :b '] is a closed quoted
    region of the command, and its text is rewritten for [:b]. *)
Lemma quoted_region_rewritten_after_cast :
  quotesClosed (str " :a ") = true /\ noQuote (str " :b ") = true /\
  adjustCommand (str " :a " ++ quote :: str " :b " ++ quote :: str " ")
    [mkParameter (str ":a") (str "'") None; mkParameter (str ":b") [] None]
  = Ok (str " $1::' ' $2 ' ") /\
  ~ exists a b, str " $1::' ' $2 ' " = a ++ quote :: str " :b " ++ quote :: b.
Proof.
  repeat split; try reflexivity.
  intros (a & b & H). unfold str in H. simpl in H.
  repeat (destruct a as [|? a]; simpl in H;
          [discriminate H | first [discriminate H | injection H as _ H]]).
Qed.

(** C2: two occurrences that share a delimiter.  The match of the first
    takes the comma, and the second is left in place. *)
Theorem adjacent_occurrence_left_in_place :
  adjustCommand (str " :id,:id ") [idParam] = Ok (str " $1,:id ").
Proof. reflexivity. Qed.

Lemma successive_le (ms : list (nat * nat)) (lo lo' : nat) :
  lo <= lo' -> successive lo' ms -> successive lo ms.
Proof.
  destruct ms as [|[a b] rest]; simpl; intros Hle H; [exact I|].
  destruct H as (H1 & H2 & H3). repeat split; [lia | exact H2 | exact H3].
Qed.

Lemma successive_above (ms : list (nat * nat)) :
  forall lo a b, successive lo ms -> In (a, b) ms -> lo <= a /\ a < b.
Proof.
  induction ms as [|[a0 b0] rest IH]; simpl; intros lo a b H Hin; [contradiction|].
  destruct H as (H1 & H2 & H3). destruct Hin as [[= <- <-] | Hin]; [lia|].
  destruct (IH _ _ _ H3 Hin). lia.
Qed.

(** Of two matches, the one that begins first has ended where the other
    begins. *)
Lemma successive_apart (ms : list (nat * nat)) :
  forall lo a b a' b', successive lo ms ->
  In (a, b) ms -> In (a', b') ms -> a' < a -> b' <= a.
Proof.
  induction ms as [|[a0 b0] rest IH]; simpl; intros lo a b a' b' H Hin Hin' Hlt;
    [contradiction|].
  destruct H as (H1 & H2 & H3).
  destruct Hin as [[= <- <-] | Hin]; destruct Hin' as [[= <- <-] | Hin'].
  - lia.
  - destruct (successive_above _ _ _ _ H3 Hin'). lia.
  - destruct (successive_above _ _ _ _ H3 Hin). lia.
  - apply (IH _ _ _ _ _ H3 Hin Hin' Hlt).
Qed.

Lemma findAllFrom_successive (re : Regexp) (s : gostring) :
  forall off skip, successive (off + skip) (findAllFrom re off skip s).
Proof.
  induction s as [|c r IH]; intros off skip; simpl; [exact I|].
  destruct skip as [|k].
  - destruct (matchHere re (c :: r)) as [n|] eqn:E.
    + pose proof (matchHere_bounds _ _ _ E) as Hn. simpl.
      repeat split; [lia | lia |].
      replace (off + n) with (S off + (n - 1)) by lia. apply IH.
    + apply (successive_le _ _ (S off + 0)); [lia | apply IH].
  - replace (off + S k) with (S off + k) by lia. apply IH.
Qed.

(** C3, as amended.  For a plain name the pattern compiles, and in every
    text its matches are exactly the bounded occurrences (a delimiter, a
    sigil, the name's tail, and then a delimiter or the end of the text)
    that do not begin inside another match; the matches stand one after
    the other, without overlap.  An occurrence followed by another byte
    is not matched, and neither is one whose sigil begins the text. *)
Theorem match_iff_bounded_by_delimiters (old s : gostring) :
  plainName old = true ->
  exists re, compileParamRegExp (tail old) = Ok re /\
  (forall a b, In (a, b) (FindAllStringIndex re s) <->
     boundedAt (tail old) s a b /\
     forall a' b', In (a', b') (FindAllStringIndex re s) -> ~ (a' < a < b')) /\
  successive 0 (FindAllStringIndex re s) /\
  (forall u d g c w b, s = u ++ d :: g :: tail old ++ c :: w -> isDelim c = false ->
     ~ In (length u, b) (FindAllStringIndex re s)) /\
  (forall g w b, s = g :: w -> isDelim g = false ->
     ~ In (0, b) (FindAllStringIndex re s)).
Proof.
  intros Hold. destruct old as [|c0 tl]; [discriminate|]. simpl in Hold. simpl tail.
  exists (ParamRegExp tl). split; [unfold compileParamRegExp; rewrite Hold; reflexivity|].
  assert (Sound : forall a b, In (a, b) (FindAllStringIndex (ParamRegExp tl) s)
                              -> boundedAt tl s a b).
  { intros a b H. apply (findAllFrom_sound tl s s [] 0 a b eq_refl H). }
  assert (Succ : successive 0 (FindAllStringIndex (ParamRegExp tl) s))
    by apply (findAllFrom_successive _ s 0 0).
  split; [|split; [exact Succ|split]].
  - intros a b. split.
    + intros Hin. split; [apply Sound, Hin|].
      intros a' b' Hin' [H1 H2].
      pose proof (successive_apart _ _ _ _ _ _ Succ Hin Hin' H1). lia.
    + intros [Hb Hfree].
      destruct (findAllFrom_complete tl s a b Hb s [] 0 eq_refl) as (a' & b' & Hin & Hab & He);
        [simpl; lia|].
      destruct (Nat.eq_dec a' a) as [-> | Hne]; [rewrite <- (He eq_refl); exact Hin|].
      exfalso. apply (Hfree a' b' Hin). lia.
  - intros u d g c w b Hs Hc Hin. apply Sound in Hin.
    destruct Hin as (u' & d' & g' & w' & E & Hu & _ & _ & H). rewrite Hs in E.
    apply app_inj_1 in E as [_ E]; [|congruence].
    injection E as _ _ E. apply app_inv_head in E. subst w'.
    destruct H as [[H _] | (e & w'' & H & He & _)]; [discriminate|].
    injection H as <- _. congruence.
  - intros g w b Hs Hg Hin. apply Sound in Hin.
    destruct Hin as (u' & d' & g' & w' & E & Hu & Hd & _).
    destruct u'; [|discriminate]. rewrite Hs in E. injection E as -> _. congruence.
Qed.

(** The two occurrences of [" :id,:id "]: the second begins inside the
    match of the first, and is no match. *)
Lemma match_iff_bounded_by_delimiters_witness :
  exists re, compileParamRegExp (str "id") = Ok re /\
  (forall a b, In (a, b) (FindAllStringIndex re (str " :id,:id ")) <->
     boundedAt (str "id") (str " :id,:id ") a b /\
     forall a' b', In (a', b') (FindAllStringIndex re (str " :id,:id ")) -> ~ (a' < a < b')) /\
  successive 0 (FindAllStringIndex re (str " :id,:id ")) /\
  (forall u d g c w b, str " :id,:id " = u ++ d :: g :: str "id" ++ c :: w -> isDelim c = false ->
     ~ In (length u, b) (FindAllStringIndex re (str " :id,:id "))) /\
  (forall g w b, str " :id,:id " = g :: w -> isDelim g = false ->
     ~ In (0, b) (FindAllStringIndex re (str " :id,:id "))).
Proof.
  exact (match_iff_bounded_by_delimiters (str ":id") (str " :id,:id ") eq_refl).
Defined.

(** C3 as stated fails: a placeholder at the very start of the command is
    not matched. *)
Lemma placeholder_at_start_not_matched :
  FindAllStringIndex (ParamRegExp (str "id")) (str ":id = 1") = [] /\
  adjustCommand (str ":id = 1") [idParam] = Ok (str ":id = 1").
Proof. split; reflexivity. Qed.

Lemma positional_token (i : nat) (p : Param) : positional i p = token (i + 1) p.
Proof.
  unfold positional, token, castOf.
  destruct (customTypeName p); [rewrite app_nil_r|]; reflexivity.
Qed.

(** ** A token under the parameters that follow *)

(** A match does not reach over a [$]: the byte is no delimiter, no
    sigil, and no byte of a literal tail. *)
Lemma matchHere_param_before_dollar (tl X Z : gostring) (d : ascii) (n : nat) :
  forallb isLiteral tl = true ->
  matchHere (ParamRegExp tl) (X ++ d :: dollar :: Z) = Some n -> n <= length X + 1.
Proof.
  intros Hlit Hm.
  apply matchHere_param_spec in Hm as (u & d' & g & w & E & Hu & Hd & Hg & H).
  destruct u; [|discriminate]. simpl in E.
  destruct (le_gt_dec n (length X + 1)) as [Hle | Hgt]; [exact Hle|]. exfalso.
  assert (N : nth_error (d' :: g :: tl ++ w) (S (length X)) = Some dollar).
  { rewrite <- E. replace (S (length X)) with (length X + 1) by lia.
    rewrite nth_error_app2 by lia.
    replace (length X + 1 - length X) with 1 by lia. reflexivity. }
  simpl in N. destruct X as [|x X]; simpl in N.
  - injection N as ->. discriminate Hg.
  - destruct (Nat.lt_ge_cases (length X) (length tl)) as [Hlt | Hge].
    + rewrite nth_error_app1 in N by exact Hlt. apply nth_error_In in N.
      rewrite forallb_forall in Hlit. specialize (Hlit _ N). discriminate Hlit.
    + rewrite nth_error_app2 in N by exact Hge.
      destruct H as [[-> _] | (e & w' & -> & He & ->)].
      * destruct (length X - length tl); discriminate N.
      * simpl in Hgt. replace (length X - length tl) with 0 in N by lia.
        injection N as ->. discriminate He.
Qed.

Lemma rewriteSeg_at (tl new r : gostring) (c : ascii) :
  rewriteSeg tl new 0 (c :: r)
  = match matchHere (ParamRegExp tl) (c :: r) with
    | Some n => c :: new ++ rewriteSeg tl new (n - 1) r
    | None => c :: rewriteSeg tl new 0 r
    end.
Proof. reflexivity. Qed.

(** The pass goes through a text in which no match begins. *)
Lemma rewriteSeg_opensNoMatch (tl new tok : gostring) :
  opensNoMatch tok = true ->
  forall Y, exists Y', rewriteSeg tl new 0 (tok ++ Y) = tok ++ Y'.
Proof.
  induction tok as [|c r IH]; intros H Y.
  - exists (rewriteSeg tl new 0 Y). reflexivity.
  - cbn [opensNoMatch] in H. apply andb_true_iff in H as [Hc Hr].
    change ((c :: r) ++ Y) with (c :: r ++ Y). rewrite rewriteSeg_at.
    destruct r as [|c' r'].
    + simpl. destruct (matchHere (ParamRegExp tl) (c :: Y)); eexists; reflexivity.
    + destruct (IH Hr Y) as (Y' & E). exists Y'.
      replace (matchHere (ParamRegExp tl) (c :: (c' :: r') ++ Y)) with (@None nat).
      * rewrite E. reflexivity.
      * unfold matchHere. simpl app. apply negb_true_iff in Hc. cbv beta iota.
        rewrite Hc. reflexivity.
Qed.

(** A delimiter followed by a text that begins with [$] and in which no
    match begins is written as it stands, wherever the pass finds it. *)
Lemma rewriteSeg_keeps (tl new t : gostring) (d : ascii) :
  forallb isLiteral tl = true -> opensNoMatch (dollar :: t) = true ->
  forall X skip Y, skip <= length X + 1 ->
  exists X' Y',
    rewriteSeg tl new skip (X ++ d :: dollar :: t ++ Y) = X' ++ d :: dollar :: t ++ Y'.
Proof.
  intros Hlit Ht.
  assert (Here : forall Y, exists Y',
            rewriteSeg tl new 0 (dollar :: t ++ Y) = dollar :: t ++ Y').
  { intros Y. apply (rewriteSeg_opensNoMatch tl new (dollar :: t) Ht Y). }
  induction X as [|x X IH]; intros skip Y Hs.
  - destruct (Here Y) as (Y' & E). exists [], Y'. simpl app.
    destruct skip as [|[|k]]; [| |simpl in Hs; lia].
    + rewrite rewriteSeg_at.
      replace (matchHere (ParamRegExp tl) (d :: dollar :: t ++ Y)) with (@None nat).
      * rewrite E. reflexivity.
      * unfold matchHere. rewrite andb_false_r. reflexivity.
    + change (rewriteSeg tl new 1 (d :: dollar :: t ++ Y))
        with (d :: rewriteSeg tl new 0 (dollar :: t ++ Y)).
      rewrite E. reflexivity.
  - simpl in Hs.
    change ((x :: X) ++ d :: dollar :: t ++ Y) with (x :: X ++ d :: dollar :: t ++ Y).
    destruct skip as [|[|k]].
    + rewrite rewriteSeg_at.
      destruct (matchHere (ParamRegExp tl) (x :: X ++ d :: dollar :: t ++ Y)) as [n|] eqn:E.
      * pose proof (matchHere_param_before_dollar tl (x :: X) (t ++ Y) d n Hlit E) as Hn.
        simpl in Hn.
        destruct (IH (n - 1) Y) as (X' & Y' & E'); [lia|].
        exists (x :: new ++ X'), Y'. rewrite E'. simpl. rewrite <- app_assoc. reflexivity.
      * destruct (IH 0 Y) as (X' & Y' & E'); [lia|].
        exists (x :: X'), Y'. rewrite E'. reflexivity.
    + destruct (IH 0 Y) as (X' & Y' & E'); [lia|].
      exists (x :: X'), Y'.
      change (rewriteSeg tl new 1 (x :: X ++ d :: dollar :: t ++ Y))
        with (x :: rewriteSeg tl new 0 (X ++ d :: dollar :: t ++ Y)).
      rewrite E'. reflexivity.
    + destruct (IH (S k) Y) as (X' & Y' & E'); [lia|].
      exists X', Y'. exact E'.
Qed.

Lemma prefix_without {A : Type} (B : list A) :
  forall (seg r Y : list A) (c : A),
  seg ++ c :: r = B ++ Y -> ~ In c B -> exists Z, seg = B ++ Z.
Proof.
  induction B as [|b B IH]; intros seg r Y c E Hc.
  - exists seg. reflexivity.
  - destruct seg as [|a seg]; simpl in E.
    + injection E as -> _. exfalso. apply Hc. left. reflexivity.
    + injection E as -> E. destruct (IH _ _ _ _ E) as (Z & ->).
      * intros H. apply Hc. right. exact H.
      * exists Z. reflexivity.
Qed.

(** A byte that does not occur in [B] stands before [B] or after it. *)
Lemma split_around {A : Type} (B : list A) (c : A) :
  ~ In c B ->
  forall (X seg r Y : list A),
  seg ++ c :: r = X ++ B ++ Y ->
  (exists Z, seg = X ++ B ++ Z) \/ (exists X1, X = seg ++ c :: X1 /\ r = X1 ++ B ++ Y).
Proof.
  intros Hc. induction X as [|x X IH]; intros seg r Y E.
  - left. simpl in E. apply (prefix_without B seg r Y c E Hc).
  - destruct seg as [|a seg]; simpl in E.
    + injection E as -> E. right. exists X. split; [reflexivity | exact E].
    + injection E as -> E. destruct (IH _ _ _ E) as [(Z & ->) | (X1 & -> & ->)].
      * left. exists Z. reflexivity.
      * right. exists X1. split; reflexivity.
Qed.

Lemma upToQuote_split (r : gostring) :
  forall m, upToQuote r = Some m ->
  exists q rest, r = q ++ quote :: rest /\ noQuote q = true /\ m = S (length q).
Proof.
  induction r as [|c r IH]; intros m H; [discriminate|].
  simpl in H. destruct (isQuote c) eqn:Hc.
  - injection H as <-. apply isQuote_quote in Hc. subst c.
    exists [], r. repeat split.
  - destruct (upToQuote r) as [k|]; [|discriminate]. injection H as <-.
    destruct (IH k eq_refl) as (q & rest & -> & Hq & ->).
    exists (c :: q), rest. simpl. rewrite Hc, Hq. repeat split.
Qed.

Lemma noQuote_not_In (B : gostring) : noQuote B = true -> ~ In quote B.
Proof.
  intros H Hin. unfold noQuote in H. rewrite forallb_forall in H.
  specialize (H _ Hin). discriminate H.
Qed.

(** The same in a whole command: in an unquoted stretch by [rewriteSeg_keeps],
    in a quoted region because the region is copied. *)
Lemma rewriteCommand_keeps (tl new t : gostring) (d : ascii) :
  forallb isLiteral tl = true -> opensNoMatch (dollar :: t) = true ->
  noQuote (d :: dollar :: t) = true ->
  forall n s, length s <= n ->
  forall seg X Y, seg ++ s = X ++ (d :: dollar :: t) ++ Y ->
  exists X' Y', rewriteCommand tl new seg 0 s = X' ++ d :: dollar :: t ++ Y'.
Proof.
  intros Hlit Ht Hq.
  pose proof (noQuote_not_In _ Hq) as Hnot.
  assert (Seg : forall seg X Y, seg = X ++ (d :: dollar :: t) ++ Y ->
            exists X' Y', rewriteSeg tl new 0 seg = X' ++ d :: dollar :: t ++ Y').
  { intros seg X Y ->. apply (rewriteSeg_keeps tl new t d Hlit Ht X 0 Y). lia. }
  induction n as [|n IH]; intros s Hn seg X Y E.
  - destruct s; [|simpl in Hn; lia]. rewrite app_nil_r in E. simpl. apply (Seg _ _ _ E).
  - destruct s as [|c r].
    + rewrite app_nil_r in E. simpl. apply (Seg _ _ _ E).
    + simpl in Hn.
      destruct (matchHere quoteRegExp (c :: r)) as [k|] eqn:Em.
      * unfold matchHere in Em. destruct (isQuote c) eqn:Hc; [|discriminate].
        apply isQuote_quote in Hc. subst c.
        destruct (upToQuote r) as [m|] eqn:Eu; [|discriminate].
        destruct (upToQuote_split _ _ Eu) as (q & rest & -> & Hnq & ->).
        rewrite (rewriteCommand_region tl new q Hnq seg rest).
        destruct (split_around _ _ Hnot _ _ _ _ E) as [(Z & ->) | (X1 & -> & E1)].
        -- destruct (Seg _ X Z eq_refl) as (X' & Y' & ->).
           exists X', (Y' ++ quote :: q ++ quote :: rewriteCommand tl new [] 0 rest).
           repeat (progress (simpl; rewrite <- ?app_assoc)); reflexivity.
        -- destruct (split_around _ _ Hnot _ _ _ _ E1) as [(Z & ->) | (X2 & -> & E2)].
           ++ exists (rewriteSeg tl new 0 seg ++ quote :: X1),
                     (Z ++ quote :: rewriteCommand tl new [] 0 rest).
              repeat (progress (simpl; rewrite <- ?app_assoc)); reflexivity.
           ++ assert (Hlen : length rest <= n)
                by (rewrite length_app in Hn; simpl in Hn; lia).
              destruct (IH rest Hlen [] X2 Y E2) as (X' & Y' & E').
              exists (rewriteSeg tl new 0 seg ++ quote :: q ++ quote :: X'), Y'.
              rewrite E'. repeat (progress (simpl; rewrite <- ?app_assoc)); reflexivity.
      * simpl rewriteCommand. rewrite Em.
        apply (IH r ltac:(lia) (seg ++ [c]) X Y). rewrite <- app_assoc. exact E.
Qed.

Lemma rewriteAll_keeps (t : gostring) (d : ascii) :
  opensNoMatch (dollar :: t) = true -> noQuote (d :: dollar :: t) = true ->
  forall rest i X Y, plainNames rest = true ->
  exists X' Y', rewriteAll i (X ++ d :: dollar :: t ++ Y) rest = X' ++ d :: dollar :: t ++ Y'.
Proof.
  intros Ht Hq. induction rest as [|q rest IH]; intros i X Y Hplain.
  - exists X, Y. reflexivity.
  - simpl in Hplain. apply andb_true_iff in Hplain as [Hq1 Hrest]. simpl.
    assert (Hlit : forallb isLiteral (tail (name q)) = true)
      by (destruct (name q); [discriminate | exact Hq1]).
    destruct (rewriteCommand_keeps (tail (name q)) (positional i q) t d Hlit Ht Hq
                _ (X ++ d :: dollar :: t ++ Y) (Nat.le_refl _) [] X Y eq_refl)
      as (X' & Y' & ->).
    apply (IH (S i) X' Y' Hrest).
Qed.

Lemma uint_noDelim (u : Decimal.uint) : noDelim (str (NilEmpty.string_of_uint u)) = true.
Proof. induction u; simpl; try reflexivity; exact IHu. Qed.

Lemma opensNoMatch_noDelim (a b : gostring) :
  noDelim a = true -> opensNoMatch b = true -> opensNoMatch (a ++ b) = true.
Proof.
  induction a as [|c a IH]; intros Ha Hb; [exact Hb|].
  simpl in Ha. apply andb_true_iff in Ha as [Hc Ha]. apply negb_true_iff in Hc.
  change ((c :: a) ++ b) with (c :: (a ++ b)). simpl. rewrite Hc, (IH Ha Hb).
  destruct (a ++ b); reflexivity.
Qed.

Lemma opensNoMatch_noSigil (b : gostring) : noSigil b = true -> opensNoMatch b = true.
Proof.
  induction b as [|c r IH]; intros H; [reflexivity|].
  simpl in H. apply andb_true_iff in H as [_ Hr]. simpl. rewrite (IH Hr).
  destruct r as [|c' r']; [reflexivity|].
  simpl in Hr. apply andb_true_iff in Hr as [Hc' _]. apply negb_true_iff in Hc'.
  rewrite Hc', andb_false_r. reflexivity.
Qed.

(** A token whose custom type name holds no sigil and no quote. *)
Lemma token_inert (k : nat) (p : Param) :
  noSigil (customTypeName p) = true -> noQuote (customTypeName p) = true ->
  exists t, token k p = dollar :: t /\ opensNoMatch (dollar :: t) = true /\
            noQuote (dollar :: t) = true.
Proof.
  intros Hs Hq. unfold token, decimal.
  destruct (customTypeName p) as [|c r] eqn:E.
  - eexists. split; [reflexivity|]. split.
    + rewrite <- (app_nil_r (dollar :: str (NilEmpty.string_of_uint (Nat.to_uint k)))).
      apply opensNoMatch_noDelim; [|reflexivity].
      simpl. apply uint_noDelim.
    + simpl. apply uint_noQuote.
  - eexists. split; [reflexivity|]. split.
    + change (dollar :: str (NilEmpty.string_of_uint (Nat.to_uint k)) ++ str "::" ++ c :: r)
        with ([dollar] ++ str (NilEmpty.string_of_uint (Nat.to_uint k)) ++ str "::" ++ c :: r).
      apply opensNoMatch_noDelim; [reflexivity|].
      apply opensNoMatch_noDelim; [apply uint_noDelim|].
      apply opensNoMatch_noDelim; [reflexivity|].
      apply opensNoMatch_noSigil, Hs.
    + simpl. rewrite noQuote_app, uint_noQuote. simpl. simpl in Hq. exact Hq.
Qed.

Lemma isDelim_not_quote (d : ascii) : isDelim d = true -> isQuote d = false.
Proof.
  destruct d as [[] [] [] [] [] [] [] []]; intros H; try reflexivity; discriminate H.
Qed.

(** C5, as amended.  Let [p] stand at 1-based position [k] of the parameter
    list, and let [s] be an unquoted stretch of the command as the
    parameters before [p] left it.  Every match of [p]'s name in [s] that a
    delimiter closes is replaced by the token [$k], with
    [::customTypeName] when the custom type name is not empty and nothing
    else when it is: the token stands between the two delimiters of the
    match, and what follows the match is rewritten with the same token.
    The parameters after [p] are applied to the text so obtained, token
    included; when the custom type name holds no sigil and no quote, the
    token is still there, behind the same delimiter, in what
    [adjustCommand] returns for the whole list. *)
Theorem occurrence_replaced_by_token
    (ps : list Param) (p : Param) (rest : list Param)
    (cmd pre s post tl : gostring) (c0 : ascii) (a : nat) :
  name p = c0 :: tl -> forallb isLiteral tl = true ->
  adjustCommand cmd ps = Ok (pre ++ s ++ post) -> stretchOf pre s post ->
  In (a, a + 3 + length tl) (FindAllStringIndex (ParamRegExp tl) s) ->
  exists front back d e,
    nth_error s a = Some d /\ nth_error s (a + 2 + length tl) = Some e /\
    replaceParameterName (skipn (a + 3 + length tl) s ++ post) (name p)
      (token (length ps + 1) p) = Ok back /\
    adjustCommand cmd (ps ++ [p])
    = Ok (front ++ d :: token (length ps + 1) p ++ e :: back) /\
    adjustCommand cmd (ps ++ p :: rest)
    = adjustFrom (length ps + 1) (front ++ d :: token (length ps + 1) p ++ e :: back) rest /\
    (plainNames rest = true ->
     noSigil (customTypeName p) = true -> noQuote (customTypeName p) = true ->
     exists front' back',
       adjustCommand cmd (ps ++ p :: rest)
       = Ok (front' ++ d :: token (length ps + 1) p ++ back')).
Proof.
  intros Hname Hlit Hps Hstretch Hin.
  set (new := token (length ps + 1) p).
  destruct (rewriteSeg_match tl new _ _ _ _ _ Hin) as (front & _ & Hm & Hr).
  rewrite Nat.sub_0_r in Hm, Hr.
  replace (a + 3 + length tl - a) with (3 + length tl) in Hm by lia.
  destruct (matchHere_param_closed _ _ Hm) as (d & g & e & x & Hx & Hd & Hg & He).
  assert (Hb : skipn (a + 3 + length tl) s = x).
  { replace (a + 3 + length tl) with (1 + ((2 + length tl) + a)) by lia.
    rewrite <- skipn_skipn, <- skipn_skipn, Hx, skipn_occurrence. reflexivity. }
  set (front0 := rewriteCommand tl new [] 0 pre ++ front).
  set (back0 := rewriteSeg tl new 0 x ++ rewriteCommand tl new [] 0 post).
  assert (K : replaceParameterName (pre ++ s ++ post) (name p) (positional (length ps) p)
              = Ok (front0 ++ d :: new ++ e :: back0)).
  { rewrite Hname, positional_token, (replaceParameterName_eq _ _ _ _ Hlit).
    fold new. rewrite (rewriteCommand_stretch _ _ _ _ _ Hstretch), Hr, Hx.
    rewrite (rewriteSeg_here _ _ _ _ _ _ Hd Hg He).
    unfold front0, back0. rewrite <- !app_assoc. simpl. rewrite <- !app_assoc. reflexivity. }
  assert (Step : forall qs, adjustCommand cmd (ps ++ p :: qs)
                            = adjustFrom (length ps + 1) (front0 ++ d :: new ++ e :: back0) qs).
  { intros qs. unfold adjustCommand in *. rewrite adjustFrom_app, Hps. simpl.
    rewrite K. simpl. rewrite Nat.add_1_r. reflexivity. }
  exists front0, back0, d, e.
  split; [apply (skipn_cons_nth_error _ _ _ _ Hx)|]. split.
  { apply (skipn_cons_nth_error s x).
    replace (a + 2 + length tl) with ((2 + length tl) + a) by lia.
    rewrite <- skipn_skipn, Hx. apply skipn_occurrence. }
  split; [|split; [apply (Step []) | split; [apply Step|]]].
  - rewrite Hname, Hb, (replaceParameterName_eq _ _ _ _ Hlit).
    f_equal. change (x ++ post) with ([] ++ x ++ post).
    rewrite (rewriteCommand_stretch tl new [] x post); [reflexivity|].
    split; [constructor|]. destruct Hstretch as [_ [[Hs Hq] | [Hs Hp]]].
    + left. split; [|exact Hq]. rewrite <- Hb. apply noQuote_skipn, Hs.
    + right. split; [|exact Hp]. rewrite <- Hb. apply findAllFrom_nil_skipn, Hs.
  - intros Hplain Hsig Hquo.
    destruct (token_inert (length ps + 1) p Hsig Hquo) as (t & Et & Ht & Hq).
    fold new in Et.
    assert (Hq' : noQuote (d :: dollar :: t) = true).
    { change (noQuote (d :: dollar :: t)) with (negb (isQuote d) && noQuote (dollar :: t)).
      rewrite (isDelim_not_quote _ Hd), Hq. reflexivity. }
    rewrite Step, (adjustFrom_eq _ Hplain), Et.
    destruct (rewriteAll_keeps t d Ht Hq' rest (length ps + 1) front0 (e :: back0) Hplain)
      as (X' & Y' & E).
    exists X', Y'. f_equal. exact E.
Qed.

(** The second [:x] of ["select :a, :x from t where b = :x and c = :b "],
    with [:x] of custom type [int4] second of three parameters: the token
    is in the command that the three parameters give. *)
Lemma occurrence_replaced_by_token_witness :
  exists front' back',
    adjustCommand (str "select :a, :x from t where b = :x and c = :b ")
      [mkParameter (str ":a") [] None; mkParameter (str ":x") (str "int4") None;
       mkParameter (str ":b") [] None]
    = Ok (front' ++ " "%char :: str "$2::int4" ++ back').
Proof.
  destruct (occurrence_replaced_by_token
              [mkParameter (str ":a") [] None] (mkParameter (str ":x") (str "int4") None)
              [mkParameter (str ":b") [] None]
              (str "select :a, :x from t where b = :x and c = :b ")
              [] (str "select $1, :x from t where b = :x and c = :b ") []
              (str "x") ":"%char 30)
    as (front & back & d & e & Hd & _ & _ & _ & _ & Hkeep).
  - reflexivity.
  - reflexivity.
  - reflexivity.
  - split; [constructor|]. right. split; reflexivity.
  - vm_compute. right. left. reflexivity.
  - vm_compute in Hd. injection Hd as <-.
    apply Hkeep; reflexivity.
Defined.

(** C5 as stated fails on its example: the command [":x"] is returned as
    it is, the placeholder has no delimiter before it; after a
    delimiter, at the end of the command, the token is followed by the
    last byte of the name; and a token whose custom type name holds a
    placeholder of a later parameter is rewritten in its turn. *)
Lemma cast_example_not_rewritten :
  adjustCommand (str ":x") [mkParameter (str ":x") (str "int4") None] = Ok (str ":x") /\
  adjustCommand (str " :x") [mkParameter (str ":x") (str "int4") None]
  = Ok (str " $1::int4x") /\
  adjustCommand (str "select :x from t")
    [mkParameter (str ":x") (str "numeric(:p,2)") None; mkParameter (str ":p") [] None]
  = Ok (str "select $1::numeric($2,2) from t").
Proof. repeat split; reflexivity. Qed.



(** ** The rewriter: further properties *)

Lemma rewriteSeg_unchanged (tl new s : gostring) :
  noSigil s = true -> rewriteSeg tl new 0 s = s.
Proof.
  induction s as [|c r IH]; intros H; [reflexivity|].
  simpl in H. apply andb_true_iff in H as [_ H].
  assert (E : matchHere (ParamRegExp tl) (c :: r) = None).
  { destruct r as [|g r]; [reflexivity|]. apply matchHere_param_no_sigil.
    simpl in H. apply andb_true_iff in H as [H _]. apply negb_true_iff in H. exact H. }
  simpl. rewrite E, (IH H). reflexivity.
Qed.

Lemma rewriteCommand_unchanged (tl new s : gostring) :
  forall seg k, (k = 0 \/ seg = []) -> noSigil seg = true -> noSigil s = true ->
  rewriteCommand tl new seg k s = match k with O => seg | S _ => [] end ++ s.
Proof.
  induction s as [|c r IH]; intros seg k Hk Hseg H.
  - simpl. rewrite (rewriteSeg_unchanged _ _ _ Hseg), app_nil_r.
    destruct k; [reflexivity|]. destruct Hk as [Hk | ->]; [discriminate | reflexivity].
  - simpl in H. apply andb_true_iff in H as [Hc Hr].
    destruct k as [|k]; simpl.
    + destruct (matchHere quoteRegExp (c :: r)) as [n|].
      * rewrite (rewriteSeg_unchanged _ _ _ Hseg),
          (IH [] (n - 1) (or_intror eq_refl) eq_refl Hr).
        destruct (n - 1); reflexivity.
      * rewrite (IH _ 0 (or_introl eq_refl)); [rewrite <- app_assoc; reflexivity | | exact Hr].
        unfold noSigil. rewrite forallb_app. fold (noSigil seg). rewrite Hseg.
        simpl. rewrite Hc. reflexivity.
    + rewrite (IH [] k (or_intror eq_refl) eq_refl Hr). destruct k; reflexivity.
Qed.

(** X1.  A command without sigil holds no placeholder, and is returned as
    it is. *)
Theorem no_placeholder_unchanged (command : gostring) (ps : list Param) :
  plainNames ps = true -> noSigil command = true ->
  adjustCommand command ps = Ok command.
Proof.
  intros Hnames Hcmd. unfold adjustCommand. rewrite (adjustFrom_eq _ Hnames).
  f_equal. generalize 0. clear Hnames.
  induction ps as [|p rest IH]; intros i; simpl; [reflexivity|].
  rewrite (rewriteCommand_unchanged _ _ _ [] 0 (or_introl eq_refl) eq_refl Hcmd). apply IH.
Qed.

Lemma no_placeholder_unchanged_witness :
  adjustCommand (str "select count(*) from t where a = 'x'") [idParam]
  = Ok (str "select count(*) from t where a = 'x'").
Proof.
  exact (no_placeholder_unchanged (str "select count(*) from t where a = 'x'") [idParam]
           eq_refl eq_refl).
Defined.

(** X2.  On plain names the rewriter returns: none of its slices is out
    of range. *)
Theorem rewriter_returns (command : gostring) (ps : list Param) :
  plainNames ps = true -> exists out, adjustCommand command ps = Ok out.
Proof.
  intros Hnames. exists (rewriteAll 0 command ps). apply (adjustFrom_eq _ Hnames).
Qed.

Lemma rewriter_returns_witness :
  exists out, adjustCommand (str "it's :id or 'it''s' :id") [idParam] = Ok out.
Proof.
  exact (rewriter_returns (str "it's :id or 'it''s' :id") [idParam] eq_refl).
Defined.

(** X3.  A parameter with the empty name makes [adjustCommand] panic,
    wherever it stands after parameters with plain names: [old[1:]] is out
    of range. *)
Theorem empty_name_panics (command : gostring) (ps : list Param) (p : Param)
    (rest : list Param) :
  plainNames ps = true -> name p = [] ->
  adjustCommand command (ps ++ p :: rest) = Panic sliceBoundsOutOfRange.
Proof.
  intros Hps H. unfold adjustCommand.
  rewrite adjustFrom_app, (adjustFrom_eq _ Hps). simpl. rewrite H. reflexivity.
Qed.

Lemma empty_name_panics_witness :
  adjustCommand (str "select :id") ([idParam] ++ mkParameter [] [] None :: [idParam])
  = Panic sliceBoundsOutOfRange.
Proof.
  exact (empty_name_panics (str "select :id") [idParam] (mkParameter [] [] None) [idParam]
           eq_refl eq_refl).
Defined.

(** ** Statement construction *)

Lemma bindParams_keeps (self : stmtRef) (a : ptr) (p : Param) (s : stmtRef) :
  stmt p = Some s ->
  forall ps m (heap : Heap),
  heap !! a = Some p -> snd (bindParams self ps m heap) !! a = Some p.
Proof.
  intros Hs. induction ps as [|[a0|] rest IH]; intros m heap Ha; simpl; auto.
  destruct (heap !! a0) as [param|] eqn:E; auto.
  destruct (stmt param) eqn:Es; auto.
  apply IH. rewrite lookup_insert_ne; [exact Ha|].
  intros ->. rewrite Ha in E. injection E as <-. congruence.
Qed.

Lemma bindParams_keeps_bound (self : stmtRef) (a : ptr) ps m (heap : Heap) :
  bound heap a -> bound (snd (bindParams self ps m heap)) a.
Proof.
  intros (p & s & Ha & Hs). exists p, s. split; [|exact Hs].
  apply (bindParams_keeps self a p s Hs), Ha.
Qed.

Lemma newStatement_heap (self : stmtRef) (conn : Conn) (cmd : gostring)
    (ps : list (option ptr)) (heap : Heap) :
  snd (newStatement self conn cmd ps heap) = snd (bindParams self ps ∅ heap).
Proof.
  unfold newStatement. destruct (bindParams self ps ∅ heap) as [[m|msg|] h]; reflexivity.
Qed.

Lemma afterConstructions_bound (heap heap' : Heap) (a : ptr) :
  afterConstructions heap heap' -> bound heap a -> bound heap' a.
Proof.
  induction 1 as [|h self conn cmd ps H IH]; intros Hb; [exact Hb|].
  rewrite newStatement_heap. apply bindParams_keeps_bound, IH, Hb.
Qed.

Lemma bindParams_panics (self : stmtRef) :
  forall ps m (heap : Heap),
  In None ps \/ (exists a, In (Some a) ps /\ bound heap a) ->
  exists msg, fst (bindParams self ps m heap) = Panic msg.
Proof.
  induction ps as [|[a0|] rest IH]; intros m heap H; simpl.
  - destruct H as [[] | (a & [] & _)].
  - destruct (heap !! a0) as [param|] eqn:E; [|eexists; reflexivity].
    destruct (stmt param) eqn:Es; [eexists; reflexivity|].
    apply IH. destruct H as [[H|H] | (a & [H|H] & Hb)].
    + discriminate.
    + left. exact H.
    + injection H as ->. destruct Hb as (p & s & Hp & Hs).
      rewrite Hp in E. injection E as ->. congruence.
    + right. exists a. split; [exact H|].
      destruct Hb as (p & s & Hp & Hs). exists p, s. split; [|exact Hs].
      rewrite lookup_insert_ne; [exact Hp|].
      intros ->. rewrite Hp in E. injection E as ->. congruence.
  - eexists; reflexivity.
Qed.

Lemma newStatement_panics (self : stmtRef) (conn : Conn) (cmd : gostring)
    (ps : list (option ptr)) (heap : Heap) :
  In None ps \/ (exists a, In (Some a) ps /\ bound heap a) ->
  exists msg, fst (fst (newStatement self conn cmd ps heap)) = Panic msg.
Proof.
  intros H. destruct (bindParams_panics self ps ∅ heap H) as (msg & E).
  exists msg. unfold newStatement.
  destruct (bindParams self ps ∅ heap) as [[m|msg'|] h]; simpl in *; congruence.
Qed.

Lemma bindParams_binds (self : stmtRef) :
  forall ps m (heap : Heap) m' heap',
  bindParams self ps m heap = (Ok m', heap') ->
  forall a, In (Some a) ps ->
  exists p, heap' !! a = Some p /\ stmt p = Some self.
Proof.
  induction ps as [|[a0|] rest IH]; intros m heap m' heap' H a Hin; simpl in *.
  - contradiction.
  - destruct (heap !! a0) as [param|] eqn:E; [|discriminate].
    destruct (stmt param) eqn:Es; [discriminate|].
    destruct Hin as [[= ->] | Hin].
    + exists (mkParameter (name param) (customTypeName param) (Some self)).
      split; [|reflexivity].
      pose proof (bindParams_keeps self a
                    (mkParameter (name param) (customTypeName param) (Some self))
                    self eq_refl rest
                    (<[name param := a]> m)
                    (<[a := mkParameter (name param) (customTypeName param) (Some self)]> heap)
                    (lookup_insert_eq _ _ _)) as K.
      rewrite H in K. exact K.
    + apply (IH _ _ _ _ H a Hin).
  - discriminate.
Qed.

Lemma newStatement_binds (self : stmtRef) (conn conn' : Conn) (cmd : gostring)
    (ps : list (option ptr)) (heap heap' : Heap) (st : Statement) :
  newStatement self conn cmd ps heap = (Ok st, conn', heap') ->
  forall a, In (Some a) ps -> bound heap' a.
Proof.
  unfold newStatement.
  destruct (bindParams self ps ∅ heap) as [[m|msg|] h] eqn:E; intros [= _ _ <-] a Hin.
  destruct (bindParams_binds self _ _ _ _ _ E a Hin) as (p & Hp & Hs).
  exists p, self. auto.
Qed.

(** C6.  Construction panics when a parameter is nil or already bound; and
    a parameter that a construction has bound makes every later
    construction that is given it panic. *)
Theorem construction_rejects_nil_and_bound
    (self : stmtRef) (conn : Conn) (cmd : gostring) (ps : list (option ptr)) (heap : Heap) :
  (In None ps \/ (exists a, In (Some a) ps /\ bound heap a) ->
   exists msg, fst (fst (newStatement self conn cmd ps heap)) = Panic msg) /\
  (forall st conn' heap' a,
     newStatement self conn cmd ps heap = (Ok st, conn', heap') -> In (Some a) ps ->
     forall heap'' self2 conn2 cmd2 ps2,
       afterConstructions heap' heap'' -> In (Some a) ps2 ->
       exists msg, fst (fst (newStatement self2 conn2 cmd2 ps2 heap'')) = Panic msg).
Proof.
  split.
  - apply newStatement_panics.
  - intros st conn' heap' a H Hin heap'' self2 conn2 cmd2 ps2 Hafter Hin2.
    apply newStatement_panics. right. exists a. split; [exact Hin2|].
    apply (afterConstructions_bound _ _ _ Hafter).
    apply (newStatement_binds _ _ _ _ _ _ _ _ H a Hin).
Qed.

(** [:a] is bound by a first construction, and given to a second one. *)
Lemma construction_rejects_nil_and_bound_witness :
  exists msg,
    fst (fst (newStatement 8 (mkConn 1 1) (str "select :a") [Some 1]
                (snd (newStatement 7 freshConn (str "select :a") [Some 1] twoFree))))
    = Panic msg.
Proof.
  destruct (construction_rejects_nil_and_bound 7 freshConn (str "select :a") [Some 1] twoFree)
    as [_ H].
  eapply (H _ _ _ 1).
  - vm_compute. reflexivity.
  - left. reflexivity.
  - apply after_none.
  - left. reflexivity.
Defined.

(** The loop of [newStatement] over parameters that are allocated, free
    and distinct: each is bound to the statement, and the loop goes on. *)
Lemma bindParams_front (self : stmtRef) :
  forall (front : list ptr) m (heap : Heap),
  List.NoDup front -> (forall a, In a front -> unbound heap a) ->
  exists m' (heap' : Heap),
    (forall rest, bindParams self (map Some front ++ rest) m heap
                  = bindParams self rest m' heap') /\
    (forall a, In a front -> exists p, heap' !! a = Some p /\ stmt p = Some self) /\
    (forall a p s, heap !! a = Some p -> stmt p = Some s -> heap' !! a = Some p).
Proof.
  induction front as [|a0 front IH]; intros m heap Hnd Hfree.
  - exists m, heap. repeat split; auto. intros a [].
  - apply NoDup_cons_iff in Hnd as [Hnotin Hnd].
    destruct (Hfree a0 (or_introl eq_refl)) as (p0 & Hp0 & Hs0).
    destruct (IH (<[name p0 := a0]> m)
                 (<[a0 := mkParameter (name p0) (customTypeName p0) (Some self)]> heap) Hnd)
      as (m' & heap' & Hloop & Hbound & Hkeep).
    { intros a Ha. destruct (Hfree a (or_intror Ha)) as (p & Hp & Hs).
      exists p. split; [|exact Hs].
      rewrite lookup_insert_ne; [exact Hp|]. intros ->. contradiction. }
    exists m', heap'. split; [|split].
    + intros rest. simpl. rewrite Hp0, Hs0. apply Hloop.
    + intros a [<- | Ha]; [|apply Hbound, Ha].
      exists (mkParameter (name p0) (customTypeName p0) (Some self)).
      split; [|reflexivity].
      apply (Hkeep a0 _ self); [apply lookup_insert_eq | reflexivity].
    + intros a p s Hp Hs. apply (Hkeep a p s); [|exact Hs].
      rewrite lookup_insert_ne; [exact Hp|].
      intros ->. rewrite Hp0 in Hp. injection Hp as ->. congruence.
Qed.

(** The loop at a parameter that is nil or bound: it panics there and
    leaves the heap as it found it. *)
Lemma bindParams_offender (self : stmtRef) (bad : option ptr)
    (back : list (option ptr)) m (heap : Heap) :
  bad = None \/ (exists a, bad = Some a /\ bound heap a) ->
  exists msg, bindParams self (bad :: back) m heap = (Panic msg, heap).
Proof.
  intros [-> | (a & -> & p & s & Hp & Hs)]; simpl.
  - eexists; reflexivity.
  - rewrite Hp, Hs. eexists; reflexivity.
Qed.

(** C9.  When the parameters before the i-th are allocated, free and
    distinct, and the i-th is nil or already bound (by an earlier
    statement, or as one of those before it), construction panics, the
    counters of the connection are as before, every parameter before the
    i-th is bound to the statement that was under construction, and
    every later construction that is given one of them panics. *)
Theorem construction_not_atomic
    (self : stmtRef) (conn : Conn) (cmd : gostring)
    (front : list ptr) (bad : option ptr) (back : list (option ptr)) (heap : Heap) :
  List.NoDup front -> (forall a, In a front -> unbound heap a) ->
  bad = None \/ (exists a, bad = Some a /\ (bound heap a \/ In a front)) ->
  exists msg heap',
    newStatement self conn cmd (map Some front ++ bad :: back) heap
    = (Panic msg, conn, heap') /\
    (forall a, In a front -> exists p, heap' !! a = Some p /\ stmt p = Some self) /\
    (forall a heap'' self2 conn2 cmd2 ps2,
       In a front -> afterConstructions heap' heap'' -> In (Some a) ps2 ->
       exists msg2, fst (fst (newStatement self2 conn2 cmd2 ps2 heap'')) = Panic msg2).
Proof.
  intros Hnd Hfree Hbad.
  destruct (bindParams_front self front ∅ heap Hnd Hfree)
    as (m' & heap' & Hloop & Hbound & Hkeep).
  destruct (bindParams_offender self bad back m' heap') as (msg & Hpanic).
  { destruct Hbad as [-> | (a & -> & [(p & s & Hp & Hs) | Hin])]; [left; reflexivity| |].
    - right. exists a. split; [reflexivity|]. exists p, s. split; [|exact Hs].
      apply (Hkeep a p s Hp Hs).
    - right. exists a. split; [reflexivity|].
      destruct (Hbound a Hin) as (p & Hp & Hs). exists p, self. auto. }
  exists msg, heap'. split; [|split].
  - unfold newStatement. rewrite Hloop, Hpanic. reflexivity.
  - exact Hbound.
  - intros a heap'' self2 conn2 cmd2 ps2 Hin Hafter Hin2.
    apply newStatement_panics. right. exists a. split; [exact Hin2|].
    apply (afterConstructions_bound _ _ _ Hafter).
    destruct (Hbound a Hin) as (p & Hp & Hs). exists p, self. auto.
Qed.

Lemma construction_not_atomic_witness :
  exists msg heap',
    newStatement 7 freshConn (str "select :a, :b") (map Some [1; 2] ++ None :: []) twoFree
    = (Panic msg, freshConn, heap') /\
    (forall a, In a [1; 2] -> exists p, heap' !! a = Some p /\ stmt p = Some 7) /\
    (forall a heap'' self2 conn2 cmd2 ps2,
       In a [1; 2] -> afterConstructions heap' heap'' -> In (Some a) ps2 ->
       exists msg2, fst (fst (newStatement self2 conn2 cmd2 ps2 heap'')) = Panic msg2).
Proof.
  apply (construction_not_atomic 7 freshConn (str "select :a, :b") [1; 2] None [] twoFree).
  - repeat constructor; simpl; intuition lia.
  - intros a [<- | [<- | []]]; eexists; split; reflexivity.
  - left. reflexivity.
Defined.

(** ** Resource names *)

Lemma str_inj (s t : string) : str s = str t -> s = t.
Proof.
  unfold str. intros H.
  rewrite <- (string_of_list_ascii_of_string s), <- (string_of_list_ascii_of_string t), H.
  reflexivity.
Qed.

Lemma decimal_inj (n m : nat) : decimal n = decimal m -> n = m.
Proof.
  unfold decimal. intros H. apply str_inj in H.
  assert (E : Nat.to_uint n = Nat.to_uint m).
  { assert (S : Some (Nat.to_uint n) = Some (Nat.to_uint m))
      by (rewrite <- !NilEmpty.usu, H; reflexivity).
    injection S as S. exact S. }
  rewrite <- (DecimalNat.Unsigned.of_to n), <- (DecimalNat.Unsigned.of_to m), E.
  reflexivity.
Qed.

Lemma statementName_inj (n m : nat) : statementName n = statementName m -> n = m.
Proof. unfold statementName. intros H. apply app_inv_head in H. apply decimal_inj, H. Qed.

Lemma portalNameOf_inj (n m : nat) : portalNameOf n = portalNameOf m -> n = m.
Proof. unfold portalNameOf. intros H. apply app_inv_head in H. apply decimal_inj, H. Qed.

Lemma ascendingFrom_le (ns : list nat) :
  forall lo lo', lo <= lo' -> ascendingFrom lo' ns -> ascendingFrom lo ns.
Proof.
  destruct ns as [|n rest]; simpl; intros lo lo' Hle H; [exact I|].
  destruct H as [H1 H2]. split; [lia | exact H2].
Qed.

Lemma ascendingFrom_above (ns : list nat) :
  forall lo n, ascendingFrom lo ns -> In n ns -> lo <= n.
Proof.
  induction ns as [|k rest IH]; simpl; intros lo n H Hin; [contradiction|].
  destruct H as [H1 H2]. destruct Hin as [<- | Hin]; [exact H1|].
  specialize (IH _ _ H2 Hin). lia.
Qed.

Lemma ascendingFrom_NoDup (f : nat -> gostring) (ns : list nat) :
  (forall n m, f n = f m -> n = m) ->
  forall lo, ascendingFrom lo ns -> List.NoDup (map f ns).
Proof.
  intros Hinj. induction ns as [|k rest IH]; simpl; intros lo H.
  - constructor.
  - destruct H as [H1 H2]. constructor; [|apply (IH _ H2)].
    intros Hin. apply in_map_iff in Hin as (m & Hm & Hin).
    apply Hinj in Hm. subst m.
    pose proof (ascendingFrom_above _ _ _ H2 Hin). lia.
Qed.

(** One construction: either the first loop panics and the counters stay,
    or both counters advance by one and a statement that is returned is
    named after their former values. *)
Lemma newStatement_counters (self : stmtRef) (conn : Conn) (cmd : gostring)
    (ps : list (option ptr)) (heap : Heap) :
  let '(r, conn', _) := newStatement self conn cmd ps heap in
  (conn' = conn /\ forall st, r <> Ok st) \/
  (nextStatementId conn' = S (nextStatementId conn) /\
   nextPortalId conn' = S (nextPortalId conn) /\
   forall st, r = Ok st ->
     stmtName st = statementName (nextStatementId conn) /\
     portalName st = portalNameOf (nextPortalId conn)).
Proof.
  unfold newStatement.
  destruct (bindParams self ps ∅ heap) as [[m|msg|] h].
  - right. simpl. repeat split.
    + destruct (derefAll h ps) as [l| |]; simpl in H; try discriminate.
      destruct (adjustCommand cmd l); simpl in H; try discriminate.
      injection H as <-. reflexivity.
    + destruct (derefAll h ps) as [l| |]; simpl in H; try discriminate.
      destruct (adjustCommand cmd l); simpl in H; try discriminate.
      injection H as <-. reflexivity.
  - left. split; [reflexivity | discriminate].
  - left. split; [reflexivity | discriminate].
Qed.

Lemma prepareAll_names (reqs : list Request) :
  forall (conn : Conn) (heap : Heap),
  exists ns ms,
    map stmtName (statements (fst (fst (prepareAll reqs conn heap)))) = map statementName ns /\
    map portalName (statements (fst (fst (prepareAll reqs conn heap)))) = map portalNameOf ms /\
    ascendingFrom (nextStatementId conn) ns /\
    ascendingFrom (nextPortalId conn) ms /\
    (length (statements (fst (fst (prepareAll reqs conn heap)))) = length reqs ->
     ns = seq (nextStatementId conn) (length reqs) /\
     ms = seq (nextPortalId conn) (length reqs)) /\
    length (statements (fst (fst (prepareAll reqs conn heap)))) <= length reqs.
Proof.
  induction reqs as [|[[self cmd] ps] reqs IH]; intros conn heap.
  - exists [], []. simpl. repeat split; auto.
  - simpl.
    pose proof (newStatement_counters self conn cmd ps heap) as Hone.
    destruct (newStatement self conn cmd ps heap) as [[r conn1] heap1].
    destruct (IH conn1 heap1) as (ns & ms & Hn & Hm & Han & Ham & Hall & Hlen).
    destruct (prepareAll reqs conn1 heap1) as [[rs conn2] heap2]. simpl in *.
    destruct Hone as [[-> Hr] | (Hs & Hp & Hr)].
    + exists ns, ms.
      destruct r as [st| |]; [exfalso; apply (Hr st); reflexivity | |];
        repeat split; auto; lia.
    + destruct r as [st| |].
      * destruct (Hr st eq_refl) as [Hname Hportal].
        exists (nextStatementId conn :: ns), (nextPortalId conn :: ms). simpl.
        rewrite Hname, Hportal, Hn, Hm, <- Hs, <- Hp.
        repeat split; auto.
        -- f_equal. apply Hall. lia.
        -- f_equal. apply Hall. lia.
        -- lia.
      * exists ns, ms. simpl. repeat split; auto;
          try (eapply ascendingFrom_le; [|eassumption]; lia); lia.
      * exists ns, ms. simpl. repeat split; auto;
          try (eapply ascendingFrom_le; [|eassumption]; lia); lia.
Qed.

(** ** Execution: the properties of the specification *)

Section ExecutionProperties.

Variables World ResultSet Error PanicValue Args : Type.
Variable newResultSet : World -> ResultSet * World.
Variable execute : Statement -> ResultSet -> World -> option PanicValue * World.
Variable logAndConvertPanic : PanicValue -> World -> Error * World.
Variable writeClose : gostring -> World -> option PanicValue * World.
Variable rsClose : ResultSet -> World -> (option Error + PanicValue) * World.
Variable rowsAffected : ResultSet -> World -> Z.
Variable ScanNext : ResultSet -> Args -> World -> (bool * option Error + PanicValue) * World.

Local Notation query := (Query World ResultSet Error PanicValue
                           newResultSet execute logAndConvertPanic).
Local Notation exec := (Execute World ResultSet Error PanicValue
                          newResultSet execute logAndConvertPanic rsClose rowsAffected).
Local Notation scan := (Scan World ResultSet Error PanicValue Args
                          newResultSet execute logAndConvertPanic rsClose ScanNext).

(** C4, as amended.  The three methods do not read the closed flag: on a
    closed statement they hand the statement and a new result set to the
    connection, and what they return is decided by the connection and the
    result set.  When [execute] returns, [Query] returns the result set
    without error, and [Execute] and [Scan] return what the result set
    gives; when [execute] panics, the three return the converted panic. *)
Theorem closed_statement_still_executed
    (stmt : Statement) (w w1 : World) (r : ResultSet) :
  isClosed stmt = true -> newResultSet w = (r, w1) ->
  (forall w2, execute stmt r w1 = (None, w2) ->
     query stmt w = (Rows r, w2) /\
     (forall err w3, rsClose r w2 = (inl err, w3) ->
        exec stmt w = ((rowsAffected r w3, err), w3)) /\
     (forall args res w3 cl w4,
        ScanNext r args w2 = (inl res, w3) -> rsClose r w3 = (inl cl, w4) ->
        scan stmt args w = (res, w4))) /\
  (forall x w2 err w3,
     execute stmt r w1 = (Some x, w2) -> logAndConvertPanic x w2 = (err, w3) ->
     query stmt w = (Failed err, w3) /\
     exec stmt w = ((0%Z, Some err), w3) /\
     forall args, scan stmt args w = ((false, Some err), w3)).
Proof.
  intros _ Hnew. split.
  - intros w2 Hex.
    assert (Hq : query stmt w = (Rows r, w2))
      by (unfold Query; rewrite Hnew, Hex; reflexivity).
    split; [exact Hq|]. split.
    + intros err w3 Hc. unfold Execute. rewrite Hq, Hc. reflexivity.
    + intros args [fetched err] w3 cl w4 Hs Hc. unfold Scan.
      rewrite Hq, Hs, Hc. reflexivity.
  - intros x w2 err w3 Hex Hconv.
    assert (Hq : query stmt w = (Failed err, w3))
      by (unfold Query; rewrite Hnew, Hex, Hconv; reflexivity).
    split; [exact Hq|]. split.
    + unfold Execute. rewrite Hq. reflexivity.
    + intros args. unfold Scan. rewrite Hq. reflexivity.
Qed.

(** C8.  [Execute] is [Query] followed by the close of the result set: an
    error of [Query] is returned as it is, with the count zero; otherwise
    the count is the one the result set holds after its close, returned
    with the error of the close; a panic of the close is returned as an
    error. *)
Theorem execute_is_query_then_close (stmt : Statement) (w : World) :
  (forall err w1, query stmt w = (Failed err, w1) ->
     exec stmt w = ((0%Z, Some err), w1)) /\
  (forall rs w1 err w2,
     query stmt w = (Rows rs, w1) -> rsClose rs w1 = (inl err, w2) ->
     exec stmt w = ((rowsAffected rs w2, err), w2)) /\
  (forall rs w1 x w2 err w3,
     query stmt w = (Rows rs, w1) -> rsClose rs w1 = (inr x, w2) ->
     logAndConvertPanic x w2 = (err, w3) ->
     exec stmt w = ((0%Z, Some err), w3)).
Proof.
  repeat split.
  - intros err w1 Hq. unfold Execute. rewrite Hq. reflexivity.
  - intros rs w1 err w2 Hq Hc. unfold Execute. rewrite Hq, Hc. reflexivity.
  - intros rs w1 x w2 err w3 Hq Hc Hconv. unfold Execute.
    rewrite Hq, Hc, Hconv. reflexivity.
Qed.

(** X4.  [Close] sets the closed flag when the connection has written the
    close message, and changes nothing else; when the connection panics
    the statement is as before and the converted panic is returned. *)
Theorem close_sets_flag_on_success (stmt : Statement) (w : World) :
  (forall w1, writeClose (stmtName stmt) w = (None, w1) ->
     exists stmt',
       Close World Error PanicValue logAndConvertPanic writeClose stmt w
       = ((stmt', None), w1) /\
       isClosed stmt' = true /\
       stmtName stmt' = stmtName stmt /\ portalName stmt' = portalName stmt /\
       command stmt' = command stmt /\ actualCommand stmt' = actualCommand stmt /\
       params stmt' = params stmt /\ name2param stmt' = name2param stmt) /\
  (forall x w1 err w2,
     writeClose (stmtName stmt) w = (Some x, w1) -> logAndConvertPanic x w1 = (err, w2) ->
     Close World Error PanicValue logAndConvertPanic writeClose stmt w
     = ((stmt, Some err), w2)).
Proof.
  split.
  - intros w1 H. unfold Close. rewrite H. eexists. split; [reflexivity|].
    repeat split.
  - intros x w1 err w2 H Hconv. unfold Close. rewrite H, Hconv. reflexivity.
Qed.

(** X5.  When [Query] has returned a result set, [Scan] closes it on every
    path: after [ScanNext], returned or panicked, the world goes through
    the close of the result set, and then at most through the conversion
    of a panic. *)
Theorem scan_closes_result_set (stmt : Statement) (args : Args) (w w1 : World)
    (rs : ResultSet) :
  query stmt w = (Rows rs, w1) ->
  exists r w2 c w3,
    ScanNext rs args w1 = (r, w2) /\ rsClose rs w2 = (c, w3) /\
    (snd (scan stmt args w) = w3 \/
     exists x, snd (scan stmt args w) = snd (logAndConvertPanic x w3)).
Proof.
  intros Hq. unfold Scan. rewrite Hq.
  destruct (ScanNext rs args w1) as [r w2] eqn:Hs.
  destruct (rsClose rs w2) as [c w3] eqn:Hc.
  exists r, w2, c, w3. split; [reflexivity|]. split; [exact Hc|].
  destruct r as [[fetched err]|x]; destruct c as [cl|x'].
  - left. reflexivity.
  - right. exists x'. destruct (logAndConvertPanic x' w3). reflexivity.
  - right. exists x. destruct (logAndConvertPanic x w3). reflexivity.
  - right. exists x'. destruct (logAndConvertPanic x' w3). reflexivity.
Qed.

End ExecutionProperties.

Lemma closed_statement_still_executed_witness :
  (forall w2, logExecute closedStatement 0 [] = (None, w2) ->
     Query _ _ _ _ logNewResultSet logExecute logConvert closedStatement [] = (Rows 0, w2) /\
     (forall err w3, logClose 0 w2 = (inl err, w3) ->
        Execute _ _ _ _ logNewResultSet logExecute logConvert logClose logRowsAffected
          closedStatement []
        = ((logRowsAffected 0 w3, err), w3)) /\
     (forall args res w3 cl w4,
        logScanNext 0 args w2 = (inl res, w3) -> logClose 0 w3 = (inl cl, w4) ->
        Scan _ _ _ _ _ logNewResultSet logExecute logConvert logClose logScanNext
          closedStatement args []
        = (res, w4))) /\
  (forall x w2 err w3,
     logExecute closedStatement 0 [] = (Some x, w2) -> logConvert x w2 = (err, w3) ->
     Query _ _ _ _ logNewResultSet logExecute logConvert closedStatement [] = (Failed err, w3) /\
     Execute _ _ _ _ logNewResultSet logExecute logConvert logClose logRowsAffected
       closedStatement []
     = ((0%Z, Some err), w3) /\
     forall args,
       Scan _ _ _ _ _ logNewResultSet logExecute logConvert logClose logScanNext
         closedStatement args []
       = ((false, Some err), w3)).
Proof.
  exact (closed_statement_still_executed _ _ _ _ unit
           logNewResultSet logExecute logConvert logClose logRowsAffected logScanNext
           closedStatement [] [] 0 eq_refl eq_refl).
Defined.

(** C4 as stated fails: on a closed statement, with a connection that
    runs what it is given, the three methods return without error, and
    the statement has been executed each time. *)
Lemma closed_statement_runs_without_error :
  isClosed closedStatement = true /\
  Query _ _ _ _ logNewResultSet logExecute logConvert closedStatement []
  = (Rows 0, [str "stmt0"]) /\
  Execute _ _ _ _ logNewResultSet logExecute logConvert logClose logRowsAffected
    closedStatement []
  = ((1%Z, None), [str "stmt0"]) /\
  Scan _ _ _ _ _ logNewResultSet logExecute logConvert logClose logScanNext
    closedStatement tt []
  = ((true, None), [str "stmt0"]).
Proof. repeat split. Qed.

Lemma scan_closes_result_set_witness :
  exists r w2 c w3,
    logScanNext 0 tt [str "stmt0"] = (r, w2) /\ logClose 0 w2 = (c, w3) /\
    (snd (Scan _ _ _ _ _ logNewResultSet logExecute logConvert logClose logScanNext
            preparedStatement tt []) = w3 \/
     exists x,
       snd (Scan _ _ _ _ _ logNewResultSet logExecute logConvert logClose logScanNext
              preparedStatement tt []) = snd (logConvert x w3)).
Proof.
  exact (scan_closes_result_set _ _ _ _ unit
           logNewResultSet logExecute logConvert logClose logScanNext
           preparedStatement tt [] [str "stmt0"] 0 eq_refl).
Defined.

(** * Further properties of the code

    ** The rewriter at the edges of a stretch *)

(** The last byte of a text that is not empty. *)
Lemma rewriteSeg_skip_all (tl new y : gostring) (z : ascii) :
  rewriteSeg tl new (S (length y)) (y ++ [z]) = [z].
Proof. rewrite rewriteSeg_skip. reflexivity. Qed.

Lemma matchHere_param_open (tl t : gostring) :
  matchHere (ParamRegExp tl) t = Some (2 + length tl) ->
  exists d g, t = d :: g :: tl /\ isDelim d = true /\ isSigil g = true.
Proof.
  intros H. apply matchHere_param_spec in H.
  destruct H as (u & d & g & w & -> & Hu & Hd & Hg & H).
  destruct u; [|discriminate].
  destruct H as [[-> _] | (e & w' & _ & _ & H)]; [|simpl in H; lia].
  exists d, g. rewrite app_nil_r. auto.
Qed.

(** X6.  A match that the end of the text closes: the token is written,
    and after it the last byte of the text, which is the last byte of the
    occurrence itself. *)
Theorem occurrence_at_end_keeps_last_byte
    (s old new buf tl : gostring) (a : nat) :
  In (a, a + 2 + length tl) (FindAllStringIndex (ParamRegExp tl) s) ->
  exists front d z,
    nth_error s a = Some d /\ a + 2 + length tl = length s /\
    nth_error s (length s - 1) = Some z /\
    replaceParameterNameInSubstring s old new buf (ParamRegExp tl)
    = Ok (buf ++ front ++ d :: new ++ [z]).
Proof.
  intros Hin.
  destruct (rewriteSeg_match tl new _ _ _ _ _ Hin) as (front & _ & Hm & Hr).
  rewrite Nat.sub_0_r in Hm, Hr.
  replace (a + 2 + length tl - a) with (2 + length tl) in Hm by lia.
  destruct (matchHere_param_open _ _ Hm) as (d & g & Hx & Hd & Hg).
  assert (Hs : s = firstn a s ++ d :: g :: tl) by (rewrite <- Hx; symmetry; apply firstn_skipn).
  assert (Ha : a <= length s).
  { destruct (Nat.le_gt_cases a (length s)) as [H|H]; [exact H|].
    rewrite skipn_all2 in Hx by lia. discriminate. }
  assert (Hlen : a + 2 + length tl = length s).
  { pose proof (f_equal (@length ascii) Hs) as L.
    rewrite length_app, length_firstn in L. simpl in L. lia. }
  destruct (exists_last (l := g :: tl) ltac:(discriminate)) as (y & z & Hy).
  exists front, d, z. split; [apply (skipn_cons_nth_error _ _ _ _ Hx)|].
  split; [exact Hlen|]. split.
  - apply (skipn_cons_nth_error s []).
    assert (E : skipn (length s - 1) s = skipn (length y + 1) (skipn a s)).
    { rewrite skipn_skipn. f_equal.
      apply (f_equal (@length ascii)) in Hy. rewrite length_app in Hy. simpl in Hy. lia. }
    rewrite E, Hx. change (d :: g :: tl) with ([d] ++ g :: tl). rewrite Hy.
    replace (length y + 1) with (length ([d] ++ y)) by (simpl; lia).
    rewrite app_assoc, skipn_app, skipn_all, Nat.sub_diag. reflexivity.
  - rewrite replaceParameterNameInSubstring_eq, Hr, Hx. do 3 f_equal.
    change (rewriteSeg tl new 0 (d :: g :: tl))
      with (match matchHere (ParamRegExp tl) (d :: g :: tl) with
            | Some n => d :: new ++ rewriteSeg tl new (n - 1) (g :: tl)
            | None => d :: rewriteSeg tl new 0 (g :: tl)
            end).
    rewrite (matchHere_param_end _ _ _ Hd Hg). f_equal. f_equal.
    replace (2 + length tl - 1) with (S (length y)).
    + rewrite Hy. apply rewriteSeg_skip_all.
    + apply (f_equal (@length ascii)) in Hy. rewrite length_app in Hy. simpl in Hy. lia.
Qed.

(** ["where id = :identifier"], the second parameter: [$2r]. *)
Lemma occurrence_at_end_keeps_last_byte_witness :
  exists front d z,
    nth_error (str "where id = :identifier") 10 = Some d /\
    10 + 2 + length (str "identifier") = length (str "where id = :identifier") /\
    nth_error (str "where id = :identifier") (length (str "where id = :identifier") - 1)
    = Some z /\
    replaceParameterNameInSubstring (str "where id = :identifier") (str ":identifier")
      (str "$2") [] (ParamRegExp (str "identifier"))
    = Ok ([] ++ front ++ d :: str "$2" ++ [z]).
Proof.
  apply (occurrence_at_end_keeps_last_byte (str "where id = :identifier")
           (str ":identifier") (str "$2") [] (str "identifier") 10).
  vm_compute. left. reflexivity.
Defined.

(** X7.  A command without closed quoted region, be it with one single
    quote, is rewritten as one stretch: a quote without its pair protects
    nothing. *)
Theorem lone_quote_protects_nothing
    (u v old new : gostring) :
  noQuote u = true -> noQuote v = true -> plainName old = true ->
  replaceParameterName (u ++ quote :: v) old new
  = replaceParameterNameInSubstring (u ++ quote :: v) old new [] (ParamRegExp (tail old)).
Proof.
  intros Hu Hv Hold. rewrite (replaceParameterName_plain _ _ _ Hold).
  rewrite replaceParameterNameInSubstring_eq. f_equal.
  apply (rewriteCommand_no_region _ _ _ 0 []).
  clear Hold old new.
  assert (G : forall w off, noQuote w = true -> findAllFrom quoteRegExp off 0 w = []).
  { induction w as [|c w IH]; intros off H; [reflexivity|].
    simpl in H. apply andb_true_iff in H as [Hc Hw]. apply negb_true_iff in Hc.
    simpl. rewrite (matchHere_quote_other _ _ Hc). apply IH, Hw. }
  assert (N : forall w, noQuote w = true -> upToQuote w = None).
  { induction w as [|c w IH]; intros H; [reflexivity|].
    simpl in H. apply andb_true_iff in H as [Hc Hw]. apply negb_true_iff in Hc.
    simpl. rewrite Hc, (IH Hw). reflexivity. }
  enough (E : forall off, findAllFrom quoteRegExp off 0 (u ++ quote :: v) = [])
    by apply E.
  induction u as [|c u IH]; intros off.
  - simpl. unfold matchHere. simpl. rewrite (N _ Hv). simpl. apply G, Hv.
  - simpl in Hu. apply andb_true_iff in Hu as [Hc Hu']. apply negb_true_iff in Hc.
    simpl. rewrite (matchHere_quote_other _ _ Hc). apply (IH Hu').
Qed.

Lemma lone_quote_protects_nothing_witness :
  replaceParameterName (str "it" ++ quote :: str "s = :id ") (str ":id") (str "$1")
  = replaceParameterNameInSubstring (str "it" ++ quote :: str "s = :id ") (str ":id")
      (str "$1") [] (ParamRegExp (tail (str ":id"))).
Proof.
  exact (lone_quote_protects_nothing (str "it") (str "s = :id ") (str ":id") (str "$1")
           eq_refl eq_refl eq_refl).
Defined.

(** X8.  The parameters are taken in the order of the list, each on the
    text that those before it have left, and the number in the token of
    a parameter is its position in the list. *)
Theorem parameters_rewritten_in_order (command : gostring) (ps : list Param) (p : Param) :
  adjustCommand command (ps ++ [p])
  = try text <- adjustCommand command ps ;;
    replaceParameterName text (name p) (token (length ps + 1) p).
Proof.
  unfold adjustCommand. rewrite adjustFrom_app.
  destruct (adjustFrom 0 command ps) as [text| |]; simpl; try reflexivity.
  rewrite positional_token.
  destruct (replaceParameterName text (name p) (token (length ps + 1) p)); reflexivity.
Qed.

(** ** Construction: what it writes and what it leaves *)

Lemma bindParams_fields (self : stmtRef) (a : ptr) :
  forall ps m (heap : Heap),
  match heap !! a, snd (bindParams self ps m heap) !! a with
  | Some p, Some p' =>
      name p' = name p /\ customTypeName p' = customTypeName p /\
      (stmt p' = stmt p \/ (stmt p = None /\ stmt p' = Some self /\ In (Some a) ps))
  | None, None => True
  | _, _ => False
  end.
Proof.
  induction ps as [|[a0|] rest IH]; intros m heap; simpl.
  - destruct (heap !! a); auto.
  - destruct (heap !! a0) as [param|] eqn:E; simpl; [|destruct (heap !! a); auto].
    destruct (stmt param) eqn:Es; simpl; [destruct (heap !! a); auto|].
    specialize (IH (<[name param := a0]> m)
                   (<[a0 := mkParameter (name param) (customTypeName param) (Some self)]> heap)).
    destruct (decide (a0 = a)) as [->|Hne].
    + rewrite lookup_insert_eq in IH. rewrite E.
      destruct (snd (bindParams self rest _ _) !! a) as [p'|]; [|exact IH].
      destruct IH as (Hn & Hc & Hs). simpl in *. split; [exact Hn|]. split; [exact Hc|].
      right. split; [exact Es|]. split; [|left; reflexivity].
      destruct Hs as [Hs | (Hs & _)]; [exact Hs | discriminate].
    + rewrite lookup_insert_ne in IH by exact Hne.
      destruct (heap !! a) as [p|]; [|exact IH].
      destruct (snd (bindParams self rest _ _) !! a) as [p'|]; [|exact IH].
      destruct IH as (Hn & Hc & Hs). split; [exact Hn|]. split; [exact Hc|].
      destruct Hs as [Hs | (H1 & H2 & H3)]; [left; exact Hs|].
      right. split; [exact H1|]. split; [exact H2|]. right. exact H3.
  - destruct (heap !! a); auto.
Qed.

(** X9.  Whatever its outcome, a construction allocates and frees no
    parameter, leaves the name and the custom type name of every parameter
    as they were, and changes a back-reference only from nil to the new
    statement, and only for a parameter of its list. *)
Theorem construction_writes_back_references_only
    (self : stmtRef) (conn : Conn) (cmd : gostring) (ps : list (option ptr))
    (heap : Heap) (a : ptr) :
  (forall p, heap !! a = Some p ->
     exists p', snd (newStatement self conn cmd ps heap) !! a = Some p' /\
       name p' = name p /\ customTypeName p' = customTypeName p /\
       (stmt p' = stmt p \/ (stmt p = None /\ stmt p' = Some self /\ In (Some a) ps))) /\
  (heap !! a = None -> snd (newStatement self conn cmd ps heap) !! a = None).
Proof.
  rewrite newStatement_heap.
  pose proof (bindParams_fields self a ps ∅ heap) as H.
  split.
  - intros p Hp. rewrite Hp in H.
    destruct (snd (bindParams self ps ∅ heap) !! a) as [p'|]; [|contradiction].
    exists p'. split; [reflexivity | exact H].
  - intros Hp. rewrite Hp in H.
    destruct (snd (bindParams self ps ∅ heap) !! a); [contradiction | reflexivity].
Qed.

Lemma derefAll_insert_other (heap : Heap) (a0 : ptr) (v : Param) (ptrs : list ptr) :
  ~ In a0 ptrs ->
  derefAll (<[a0 := v]> heap) (map Some ptrs) = derefAll heap (map Some ptrs).
Proof.
  induction ptrs as [|a r IH]; intros Hn; [reflexivity|].
  simpl. rewrite lookup_insert_ne by (intros ->; apply Hn; left; reflexivity).
  rewrite IH by (intros H; apply Hn; right; exact H). reflexivity.
Qed.

(** The first loop over pointers that are distinct, with free parameters
    behind them: it returns, and each parameter is rebound. *)
Lemma bindParams_all (self : stmtRef) :
  forall (ptrs : list ptr) (values : list Param) m (heap : Heap),
  List.NoDup ptrs -> derefAll heap (map Some ptrs) = Ok values -> unboundAll values = true ->
  exists m' (heap' : Heap),
    bindParams self (map Some ptrs) m heap = (Ok m', heap') /\
    derefAll heap' (map Some ptrs) = Ok (map (rebind self) values).
Proof.
  induction ptrs as [|a0 r IH]; intros values m heap Hnd Hd Hu.
  - simpl in Hd. injection Hd as <-. exists m, heap. split; reflexivity.
  - apply NoDup_cons_iff in Hnd as [Hnotin Hnd]. simpl in Hd.
    destruct (heap !! a0) as [v0|] eqn:E; [|discriminate].
    destruct (derefAll heap (map Some r)) as [vs| |] eqn:Er; try discriminate.
    simpl in Hd. injection Hd as <-. simpl in Hu.
    destruct (stmt v0) eqn:Es; [discriminate|]. simpl in Hu.
    destruct (IH vs (<[name v0 := a0]> m) (<[a0 := rebind self v0]> heap) Hnd)
      as (m' & heap' & Hb & Hd'); [rewrite derefAll_insert_other; assumption | exact Hu |].
    exists m', heap'. simpl. rewrite E, Es. split; [exact Hb|].
    pose proof (bindParams_keeps self a0 (rebind self v0) self eq_refl (map Some r)
                  (<[name v0 := a0]> m) (<[a0 := rebind self v0]> heap)
                  (lookup_insert_eq _ _ _)) as K.
    rewrite Hb in K. simpl in K. rewrite K, Hd'. reflexivity.
Qed.

Lemma adjustFrom_rebind (self : stmtRef) (values : list Param) :
  forall i cmd, adjustFrom i cmd (map (rebind self) values) = adjustFrom i cmd values.
Proof.
  induction values as [|v vs IH]; intros i cmd; [reflexivity|].
  simpl. change (positional i (rebind self v)) with (positional i v).
  destruct (replaceParameterName cmd (name v) (positional i v)); simpl; auto.
Qed.

(** [newStatement] past its first loop. *)
Lemma newStatement_after_loop (self : stmtRef) (conn : Conn) (cmd : gostring)
    (ptrs : list ptr) (values : list Param) (heap : Heap) :
  List.NoDup ptrs -> derefAll heap (map Some ptrs) = Ok values -> unboundAll values = true ->
  exists m' (heap' : Heap),
    newStatement self conn cmd (map Some ptrs) heap
    = (try text <- adjustCommand cmd values ;;
       Ok (mkStatement (statementName (nextStatementId conn))
             (portalNameOf (nextPortalId conn)) cmd text false (map Some ptrs) m'),
       mkConn (S (nextStatementId conn)) (S (nextPortalId conn)), heap') /\
    derefAll heap' (map Some ptrs) = Ok (map (rebind self) values).
Proof.
  intros Hnd Hd Hu.
  destruct (bindParams_all self ptrs values ∅ heap Hnd Hd Hu) as (m' & heap' & Hb & Hd').
  exists m', heap'. split; [|exact Hd'].
  unfold newStatement. rewrite Hb, Hd'. simpl.
  unfold adjustCommand. rewrite adjustFrom_rebind. reflexivity.
Qed.

(** X10.  Given distinct pointers to free parameters with plain names,
    construction returns a statement: it is named after the two counters
    of the connection, which both advance by one, it holds the command as
    given and the rewriting of it by [adjustCommand], it is not closed, and
    afterwards every parameter is as before but for its back-reference,
    which is the new statement. *)
Theorem construction_succeeds
    (self : stmtRef) (conn : Conn) (cmd : gostring)
    (ptrs : list ptr) (values : list Param) (heap : Heap) :
  List.NoDup ptrs -> derefAll heap (map Some ptrs) = Ok values ->
  unboundAll values = true -> plainNames values = true ->
  exists st text heap',
    newStatement self conn cmd (map Some ptrs) heap
    = (Ok st, mkConn (S (nextStatementId conn)) (S (nextPortalId conn)), heap') /\
    adjustCommand cmd values = Ok text /\
    stmtName st = statementName (nextStatementId conn) /\
    portalName st = portalNameOf (nextPortalId conn) /\
    Command st = cmd /\ ActualCommand st = text /\ IsClosed st = false /\
    ParametersOf st = map Some ptrs /\
    derefAll heap' (map Some ptrs) = Ok (map (rebind self) values).
Proof.
  intros Hnd Hd Hu Hplain.
  destruct (newStatement_after_loop self conn cmd ptrs values heap Hnd Hd Hu)
    as (m' & heap' & Hnew & Hd').
  unfold adjustCommand in *. rewrite (adjustFrom_eq _ Hplain) in Hnew. simpl in Hnew.
  eexists _, (rewriteAll 0 cmd values), heap'.
  split; [exact Hnew|]. split; [apply (adjustFrom_eq _ Hplain)|].
  repeat split. exact Hd'.
Qed.

Lemma construction_succeeds_witness :
  exists st text heap',
    newStatement 7 freshConn (str "select :a, :b ") (map Some [1; 2]) twoFree
    = (Ok st, mkConn 1 1, heap') /\
    adjustCommand (str "select :a, :b ")
      [mkParameter (str ":a") [] None; mkParameter (str ":b") [] None] = Ok text /\
    stmtName st = statementName 0 /\ portalName st = portalNameOf 0 /\
    Command st = str "select :a, :b " /\ ActualCommand st = text /\ IsClosed st = false /\
    ParametersOf st = map Some [1; 2] /\
    derefAll heap' (map Some [1; 2])
    = Ok (map (rebind 7) [mkParameter (str ":a") [] None; mkParameter (str ":b") [] None]).
Proof.
  apply (construction_succeeds 7 freshConn (str "select :a, :b ") [1; 2]
           [mkParameter (str ":a") [] None; mkParameter (str ":b") [] None] twoFree).
  - repeat constructor; simpl; intuition lia.
  - reflexivity.
  - reflexivity.
  - reflexivity.
Defined.

(** X11.  Given distinct pointers to free parameters, of which one has the
    empty name after parameters with plain names, construction panics in
    [adjustCommand]; by then both counters of the connection have
    advanced, and every parameter of the list is bound to the statement
    that is not returned. *)
Theorem construction_panics_after_binding
    (self : stmtRef) (conn : Conn) (cmd : gostring) (ptrs : list ptr)
    (front : list Param) (p : Param) (back : list Param) (heap : Heap) :
  List.NoDup ptrs -> derefAll heap (map Some ptrs) = Ok (front ++ p :: back) ->
  unboundAll (front ++ p :: back) = true -> plainNames front = true -> name p = [] ->
  exists heap',
    newStatement self conn cmd (map Some ptrs) heap
    = (Panic sliceBoundsOutOfRange,
       mkConn (S (nextStatementId conn)) (S (nextPortalId conn)), heap') /\
    derefAll heap' (map Some ptrs) = Ok (map (rebind self) (front ++ p :: back)).
Proof.
  intros Hnd Hd Hu Hplain Hname.
  destruct (newStatement_after_loop self conn cmd ptrs _ heap Hnd Hd Hu)
    as (m' & heap' & Hnew & Hd').
  exists heap'. split; [|exact Hd'].
  rewrite Hnew. unfold adjustCommand.
  rewrite adjustFrom_app, (adjustFrom_eq _ Hplain). simpl. rewrite Hname. reflexivity.
Qed.

Lemma construction_panics_after_binding_witness :
  exists heap',
    newStatement 7 freshConn (str "select :a")
      (map Some [1; 3]) (<[3 := mkParameter [] [] None]> twoFree)
    = (Panic sliceBoundsOutOfRange, mkConn 1 1, heap') /\
    derefAll heap' (map Some [1; 3])
    = Ok (map (rebind 7) ([mkParameter (str ":a") [] None] ++ mkParameter [] [] None :: [])).
Proof.
  apply (construction_panics_after_binding 7 freshConn (str "select :a") [1; 3]
           [mkParameter (str ":a") [] None] (mkParameter [] [] None) []
           (<[3 := mkParameter [] [] None]> twoFree)).
  - repeat constructor; simpl; intuition lia.
  - reflexivity.
  - reflexivity.
  - reflexivity.
  - reflexivity.
Defined.

(** ** Construction: lookup by name, ownership *)

Lemma bound_not_unbound (heap : Heap) (a : ptr) : bound heap a -> unbound heap a -> False.
Proof.
  intros (p & s & Hp & Hs) (q & Hq & Hn). rewrite Hp in Hq. injection Hq as <-. congruence.
Qed.

(** A first loop that returns has met distinct pointers, none nil, to
    parameters that were free. *)
Lemma bindParams_success (self : stmtRef) :
  forall ps m (heap : Heap) m' heap',
  bindParams self ps m heap = (Ok m', heap') ->
  List.NoDup ps /\ forall o, In o ps -> exists a, o = Some a /\ unbound heap a.
Proof.
  induction ps as [|[a0|] rest IH]; intros m heap m' heap' H; simpl in H.
  - split; [constructor | intros o []].
  - destruct (heap !! a0) as [param|] eqn:E; [|discriminate].
    destruct (stmt param) eqn:Es; [discriminate|].
    destruct (IH _ _ _ _ H) as [Hnd Hall].
    assert (Hfresh : forall a, In (Some a) rest -> a <> a0).
    { intros a Hin ->. destruct (Hall _ Hin) as (a' & [= <-] & (q & Hq & Hn)).
      rewrite lookup_insert_eq in Hq. injection Hq as <-. discriminate. }
    split.
    + constructor; [|exact Hnd]. intros Hin. apply (Hfresh a0 Hin). reflexivity.
    + intros o [<- | Hin].
      * exists a0. split; [reflexivity|]. exists param. auto.
      * destruct (Hall _ Hin) as (a & -> & (q & Hq & Hn)).
        exists a. split; [reflexivity|]. exists q. split; [|exact Hn].
        rewrite lookup_insert_ne in Hq; [exact Hq|].
        intros ->. apply (Hfresh a Hin). reflexivity.
  - discriminate.
Qed.

Lemma newStatement_Ok (self : stmtRef) (conn conn' : Conn) (cmd : gostring)
    (ps : list (option ptr)) (heap heap' : Heap) (st : Statement) :
  newStatement self conn cmd ps heap = (Ok st, conn', heap') ->
  bindParams self ps ∅ heap = (Ok (name2param st), heap') /\ params st = ps.
Proof.
  unfold newStatement.
  destruct (bindParams self ps ∅ heap) as [[m|msg|] h]; try discriminate.
  destruct (derefAll h ps) as [l| |]; simpl; try discriminate.
  destruct (adjustCommand cmd l); simpl; try discriminate.
  intros [= <- _ <-]. split; reflexivity.
Qed.

(** What the first loop leaves in [name2param]. *)
Lemma bindParams_lookup (self : stmtRef) :
  forall ps m (heap : Heap) m' heap',
  bindParams self ps m heap = (Ok m', heap') ->
  (forall n, (forall a p, In (Some a) ps -> heap !! a = Some p -> name p <> n) ->
     m' !! n = m !! n) /\
  (forall front a back p,
     ps = front ++ Some a :: back -> heap !! a = Some p ->
     (forall b q, In (Some b) back -> heap !! b = Some q -> name q <> name p) ->
     m' !! name p = Some a).
Proof.
  induction ps as [|[a0|] rest IH]; intros m heap m' heap' H.
  - simpl in H. injection H as <- <-.
    split; [reflexivity|]. intros [|? ?] a back p E; discriminate.
  - pose proof (bindParams_success self _ _ _ _ _ H) as [Hnd _].
    apply NoDup_cons_iff in Hnd as [Hnotin _].
    simpl in H. destruct (heap !! a0) as [param|] eqn:E; [|discriminate].
    destruct (stmt param) eqn:Es; [discriminate|].
    destruct (IH _ _ _ _ H) as [IH1 IH2].
    assert (Hsame : forall b, In (Some b) rest ->
              (<[a0 := mkParameter (name param) (customTypeName param) (Some self)]> heap)
                !! b = heap !! b).
    { intros b Hin. apply lookup_insert_ne. intros ->. contradiction. }
    split.
    + intros n Hn. rewrite IH1.
      * apply lookup_insert_ne. apply (Hn a0 param); [left; reflexivity | exact E].
      * intros a p Hin Hp. rewrite (Hsame _ Hin) in Hp. apply (Hn a p); [right|]; assumption.
    + intros [|o front] a back p Eq Hp Hback.
      * injection Eq as -> ->. rewrite Hp in E. injection E as <-.
        rewrite IH1; [apply lookup_insert_eq|].
        intros b q Hin Hq. rewrite (Hsame _ Hin) in Hq. apply (Hback b q Hin Hq).
      * injection Eq as <- ->.
        assert (Hin : In (Some a) (front ++ Some a :: back))
          by (apply in_or_app; right; left; reflexivity).
        apply (IH2 front a back p eq_refl).
        -- rewrite (Hsame _ Hin). exact Hp.
        -- intros b q Hb Hq.
           rewrite (Hsame b) in Hq by (apply in_or_app; right; right; exact Hb).
           apply (Hback b q Hb Hq).
  - discriminate.
Qed.

(** X12.  In a statement that [newStatement] has returned, [Parameter(name)]
    answers the last parameter of the list with that name, and nil for a
    name that no parameter of the list has. *)
Theorem parameter_lookup_by_name
    (self : stmtRef) (conn conn' : Conn) (cmd : gostring) (ps : list (option ptr))
    (heap heap' : Heap) (st : Statement) :
  newStatement self conn cmd ps heap = (Ok st, conn', heap') ->
  (forall front a back p,
     ps = front ++ Some a :: back -> heap !! a = Some p ->
     (forall b q, In (Some b) back -> heap !! b = Some q -> name q <> name p) ->
     ParameterNamed st (name p) = Some a) /\
  (forall n, (forall a p, In (Some a) ps -> heap !! a = Some p -> name p <> n) ->
     ParameterNamed st n = None).
Proof.
  intros H. apply newStatement_Ok in H as [Hb _].
  destruct (bindParams_lookup self _ _ _ _ _ Hb) as [L1 L2].
  unfold ParameterNamed. split.
  - intros front a back p Eq Hp Hback. rewrite (L2 front a back p Eq Hp Hback). reflexivity.
  - intros n Hn. rewrite (L1 n Hn), lookup_empty. reflexivity.
Qed.

Lemma parameter_lookup_by_name_witness :
  exists st conn' heap',
    newStatement 7 freshConn (str "select :a, :b ") [Some 1; Some 2; Some 3] sameNames
    = (Ok st, conn', heap') /\
    ParameterNamed st (str ":a") = Some 3.
Proof.
  destruct (newStatement 7 freshConn (str "select :a, :b ") [Some 1; Some 2; Some 3] sameNames)
    as [[[st| |] c] h] eqn:E; try (vm_compute in E; discriminate E).
  exists st, c, h. split; [reflexivity|].
  destruct (parameter_lookup_by_name 7 freshConn c (str "select :a, :b ")
              [Some 1; Some 2; Some 3] sameNames h st E) as [H _].
  apply (H [Some 1; Some 2] 3 [] (mkParameter (str ":a") [] None)).
  - reflexivity.
  - reflexivity.
  - intros b q [].
Defined.

Lemma unbound_before (self : stmtRef) (conn : Conn) (cmd : gostring)
    (ps : list (option ptr)) (heap : Heap) (a : ptr) :
  unbound (snd (newStatement self conn cmd ps heap)) a -> unbound heap a.
Proof.
  rewrite newStatement_heap. intros (p' & Hp' & Hs).
  pose proof (bindParams_fields self a ps ∅ heap) as H. rewrite Hp' in H.
  destruct (heap !! a) as [p|] eqn:E; [|contradiction].
  exists p. split; [exact E|].
  destruct H as (_ & _ & [Hst | (_ & Hst & _)]); congruence.
Qed.

(** The parameters of the statements that a sequence returns were free
    before it. *)
Lemma prepareAll_unbound (reqs : list Request) :
  forall (conn : Conn) (heap : Heap) st o,
  In st (statements (fst (fst (prepareAll reqs conn heap)))) -> In o (params st) ->
  exists a, o = Some a /\ unbound heap a.
Proof.
  induction reqs as [|[[self cmd] ps] reqs IH]; intros conn heap st o Hst Ho;
    [contradiction|].
  simpl in Hst.
  destruct (newStatement self conn cmd ps heap) as [[r conn1] heap1] eqn:E.
  assert (Hrest : In st (statements (fst (fst (prepareAll reqs conn1 heap1)))) ->
                  exists a, o = Some a /\ unbound heap a).
  { intros Hin. destruct (IH conn1 heap1 st o Hin Ho) as (a & -> & Hu).
    exists a. split; [reflexivity|].
    apply (unbound_before self conn cmd ps). rewrite E. exact Hu. }
  destruct (prepareAll reqs conn1 heap1) as [[rs conn2] heap2]. simpl in *.
  destruct r as [st0| |]; [|exact (Hrest Hst) | exact (Hrest Hst)].
  destruct Hst as [<- | Hst]; [|exact (Hrest Hst)].
  apply newStatement_Ok in E as [Hb Hps]. rewrite Hps in Ho.
  destruct (bindParams_success self _ _ _ _ _ Hb) as [_ Hall]. apply (Hall o Ho).
Qed.

Lemma prepareAll_heap_bound (reqs : list Request) :
  forall (conn : Conn) (heap : Heap) a,
  bound heap a -> bound (snd (prepareAll reqs conn heap)) a.
Proof.
  induction reqs as [|[[self cmd] ps] reqs IH]; intros conn heap a Hb; [exact Hb|].
  simpl.
  pose proof (newStatement_heap self conn cmd ps heap) as Hh.
  destruct (newStatement self conn cmd ps heap) as [[r conn1] heap1]. simpl in Hh.
  specialize (IH conn1 heap1 a).
  destruct (prepareAll reqs conn1 heap1) as [[rs conn2] heap2]. simpl in *.
  apply IH. rewrite Hh. apply bindParams_keeps_bound, Hb.
Qed.

(** X13.  Over any sequence of constructions, no parameter belongs to two
    of the statements returned, nor twice to one; none of their parameters
    is nil; each was free before the sequence and is bound after it. *)
Theorem parameters_exclusively_owned (reqs : list Request) (conn : Conn) (heap : Heap) :
  List.NoDup (concat (map ParametersOf (statements (fst (fst (prepareAll reqs conn heap))))))
  /\
  forall o,
    In o (concat (map ParametersOf (statements (fst (fst (prepareAll reqs conn heap)))))) ->
    exists a, o = Some a /\ unbound heap a /\ bound (snd (prepareAll reqs conn heap)) a.
Proof.
  revert conn heap.
  induction reqs as [|[[self cmd] ps] reqs IH]; intros conn heap.
  - simpl. split; [constructor | intros o []].
  - pose proof (prepareAll_unbound reqs) as Hunb.
    pose proof (prepareAll_heap_bound reqs) as Hkeep.
    simpl.
    pose proof (fun a => unbound_before self conn cmd ps heap a) as Hbefore.
    pose proof (newStatement_heap self conn cmd ps heap) as Hh.
    destruct (newStatement self conn cmd ps heap) as [[r conn1] heap1] eqn:E.
    simpl in Hbefore, Hh.
    specialize (IH conn1 heap1). specialize (Hunb conn1 heap1). specialize (Hkeep conn1 heap1).
    destruct (prepareAll reqs conn1 heap1) as [[rs conn2] heap2]. simpl in *.
    destruct IH as [IHnd IHall].
    assert (Hrest : forall o, In o (concat (map ParametersOf (statements rs))) ->
              exists a, o = Some a /\ unbound heap a /\ bound heap2 a).
    { intros o Ho. destruct (IHall o Ho) as (a & -> & Hu & Hb).
      exists a. split; [reflexivity|]. split; [apply Hbefore, Hu | exact Hb]. }
    destruct r as [st0| |]; [|split; assumption | split; assumption].
    pose proof (newStatement_binds _ _ _ _ _ _ _ _ E) as Hbinds.
    apply newStatement_Ok in E as [Hb Hps].
    destruct (bindParams_success self _ _ _ _ _ Hb) as [Hnd0 Hall0].
    simpl. unfold ParametersOf at 1 3. rewrite Hps. split.
    + apply List.NoDup_app; [exact Hnd0 | exact IHnd |].
      intros o Ho Ho'. destruct (Hall0 o Ho) as (a & -> & _).
      apply in_concat in Ho' as (l & Hl & Ho').
      apply in_map_iff in Hl as (st & <- & Hst).
      destruct (Hunb st (Some a) Hst Ho') as (a' & [= <-] & Hu).
      apply (bound_not_unbound heap1 a); [apply (Hbinds a Ho) | exact Hu].
    + intros o Ho. apply in_app_or in Ho as [Ho | Ho]; [|apply (Hrest o Ho)].
      destruct (Hall0 o Ho) as (a & -> & Hu). exists a. split; [reflexivity|].
      split; [exact Hu|]. apply Hkeep, (Hbinds a Ho).
Qed.

(** ** Execution: the outcomes of [Scan], repeated [Close] *)

Section ExecutionOutcomes.

Variables World ResultSet Error PanicValue Args : Type.
Variable newResultSet : World -> ResultSet * World.
Variable execute : Statement -> ResultSet -> World -> option PanicValue * World.
Variable logAndConvertPanic : PanicValue -> World -> Error * World.
Variable writeClose : gostring -> World -> option PanicValue * World.
Variable rsClose : ResultSet -> World -> (option Error + PanicValue) * World.
Variable ScanNext : ResultSet -> Args -> World -> (bool * option Error + PanicValue) * World.

Local Notation closeTimes :=
  (closeTimes World Error PanicValue logAndConvertPanic writeClose).

(** X14.  When [Query] has returned a result set, [Scan] returns what
    [ScanNext] returned and drops the error that the deferred [Close]
    returns; a panic of [Close] replaces the error and keeps [fetched];
    a panic of [ScanNext] gives [fetched = false] with the converted panic,
    unless [Close] panics too, whose panic is then the one converted. *)
Theorem scan_outcomes (stmt : Statement) (args : Args) (w w1 : World) (rs : ResultSet) :
  Query World ResultSet Error PanicValue newResultSet execute logAndConvertPanic stmt w
  = (Rows rs, w1) ->
  (forall res w2 cl w3,
     ScanNext rs args w1 = (inl res, w2) -> rsClose rs w2 = (inl cl, w3) ->
     Scan World ResultSet Error PanicValue Args newResultSet execute logAndConvertPanic
       rsClose ScanNext stmt args w = (res, w3)) /\
  (forall fetched err w2 x w3 e w4,
     ScanNext rs args w1 = (inl (fetched, err), w2) -> rsClose rs w2 = (inr x, w3) ->
     logAndConvertPanic x w3 = (e, w4) ->
     Scan World ResultSet Error PanicValue Args newResultSet execute logAndConvertPanic
       rsClose ScanNext stmt args w = ((fetched, Some e), w4)) /\
  (forall x w2 cl w3 e w4,
     ScanNext rs args w1 = (inr x, w2) -> rsClose rs w2 = (inl cl, w3) ->
     logAndConvertPanic x w3 = (e, w4) ->
     Scan World ResultSet Error PanicValue Args newResultSet execute logAndConvertPanic
       rsClose ScanNext stmt args w = ((false, Some e), w4)) /\
  (forall x w2 x' w3 e w4,
     ScanNext rs args w1 = (inr x, w2) -> rsClose rs w2 = (inr x', w3) ->
     logAndConvertPanic x' w3 = (e, w4) ->
     Scan World ResultSet Error PanicValue Args newResultSet execute logAndConvertPanic
       rsClose ScanNext stmt args w = ((false, Some e), w4)).
Proof.
  intros Hq. unfold Scan. rewrite Hq. repeat split.
  - intros [fetched err] w2 cl w3 Hs Hc. rewrite Hs, Hc. reflexivity.
  - intros fetched err w2 x w3 e w4 Hs Hc He. rewrite Hs, Hc, He. reflexivity.
  - intros x w2 cl w3 e w4 Hs Hc He. rewrite Hs, Hc, He. reflexivity.
  - intros x w2 x' w3 e w4 Hs Hc He. rewrite Hs, Hc, He. reflexivity.
Qed.

Lemma closeTimes_fields (n : nat) (stmt : Statement) (w : World) :
  stmtName (fst (fst (closeTimes n stmt w))) = stmtName stmt /\
  portalName (fst (fst (closeTimes n stmt w))) = portalName stmt /\
  command (fst (fst (closeTimes n stmt w))) = command stmt /\
  actualCommand (fst (fst (closeTimes n stmt w))) = actualCommand stmt /\
  params (fst (fst (closeTimes n stmt w))) = params stmt /\
  name2param (fst (fst (closeTimes n stmt w))) = name2param stmt /\
  (isClosed stmt = true -> isClosed (fst (fst (closeTimes n stmt w))) = true).
Proof.
  induction n as [|k IH]; simpl; [repeat split; auto|].
  destruct (closeTimes k stmt w) as [[st errs] w1]. simpl in IH.
  unfold Close. destruct (writeClose (stmtName st) w1) as [[x|] w2].
  - destruct (logAndConvertPanic x w2) as [e w3]. simpl. exact IH.
  - simpl. destruct IH as (H1 & H2 & H3 & H4 & H5 & H6 & H7). repeat split; auto.
Qed.

(** X15.  Over any number of calls of [Close] in a row, whichever of them
    fail: a statement that is closed stays closed, and no call changes the
    names, the two command texts, the parameters or the name map. *)
Theorem close_again_keeps_closed (n : nat) (stmt : Statement) (w : World) :
  isClosed stmt = true ->
  IsClosed (fst (fst (closeTimes n stmt w))) = true /\
  stmtName (fst (fst (closeTimes n stmt w))) = stmtName stmt /\
  portalName (fst (fst (closeTimes n stmt w))) = portalName stmt /\
  Command (fst (fst (closeTimes n stmt w))) = Command stmt /\
  ActualCommand (fst (fst (closeTimes n stmt w))) = ActualCommand stmt /\
  ParametersOf (fst (fst (closeTimes n stmt w))) = ParametersOf stmt /\
  name2param (fst (fst (closeTimes n stmt w))) = name2param stmt.
Proof.
  intros Hc.
  destruct (closeTimes_fields n stmt w) as (H1 & H2 & H3 & H4 & H5 & H6 & H7).
  unfold IsClosed, Command, ActualCommand, ParametersOf.
  rewrite H1, H2, H3, H4, H5, H6, (H7 Hc). repeat split.
Qed.

End ExecutionOutcomes.

Lemma scan_outcomes_witness :
  (forall res w2 cl w3,
     logScanNext 0 tt [str "stmt0"] = (inl res, w2) -> logClose 0 w2 = (inl cl, w3) ->
     Scan _ _ _ _ _ logNewResultSet logExecute logConvert logClose logScanNext
       preparedStatement tt [] = (res, w3)) /\
  (forall fetched err w2 x w3 e w4,
     logScanNext 0 tt [str "stmt0"] = (inl (fetched, err), w2) ->
     logClose 0 w2 = (inr x, w3) -> logConvert x w3 = (e, w4) ->
     Scan _ _ _ _ _ logNewResultSet logExecute logConvert logClose logScanNext
       preparedStatement tt [] = ((fetched, Some e), w4)) /\
  (forall x w2 cl w3 e w4,
     logScanNext 0 tt [str "stmt0"] = (inr x, w2) -> logClose 0 w2 = (inl cl, w3) ->
     logConvert x w3 = (e, w4) ->
     Scan _ _ _ _ _ logNewResultSet logExecute logConvert logClose logScanNext
       preparedStatement tt [] = ((false, Some e), w4)) /\
  (forall x w2 x' w3 e w4,
     logScanNext 0 tt [str "stmt0"] = (inr x, w2) -> logClose 0 w2 = (inr x', w3) ->
     logConvert x' w3 = (e, w4) ->
     Scan _ _ _ _ _ logNewResultSet logExecute logConvert logClose logScanNext
       preparedStatement tt [] = ((false, Some e), w4)).
Proof.
  exact (scan_outcomes _ _ _ _ unit logNewResultSet logExecute logConvert logClose logScanNext
           preparedStatement tt [] [str "stmt0"] 0 eq_refl).
Defined.

Lemma close_again_keeps_closed_witness :
  IsClosed (fst (fst (closeTimes _ _ _ logConvert logWriteClose 3 closedStatement []))) = true /\
  stmtName (fst (fst (closeTimes _ _ _ logConvert logWriteClose 3 closedStatement [])))
  = stmtName closedStatement /\
  portalName (fst (fst (closeTimes _ _ _ logConvert logWriteClose 3 closedStatement [])))
  = portalName closedStatement /\
  Command (fst (fst (closeTimes _ _ _ logConvert logWriteClose 3 closedStatement [])))
  = Command closedStatement /\
  ActualCommand (fst (fst (closeTimes _ _ _ logConvert logWriteClose 3 closedStatement [])))
  = ActualCommand closedStatement /\
  ParametersOf (fst (fst (closeTimes _ _ _ logConvert logWriteClose 3 closedStatement [])))
  = ParametersOf closedStatement /\
  name2param (fst (fst (closeTimes _ _ _ logConvert logWriteClose 3 closedStatement [])))
  = name2param closedStatement.
Proof.
  exact (close_again_keeps_closed _ _ _ logConvert logWriteClose 3 closedStatement []
           eq_refl).
Defined.

(** ** Resource names over a sequence of constructions *)

Lemma derefAll_freePlain (heap : Heap) (ptrs : list ptr) :
  (forall a, In a ptrs -> freePlain heap a) ->
  exists values, derefAll heap (map Some ptrs) = Ok values /\
                 unboundAll values = true /\ plainNames values = true.
Proof.
  induction ptrs as [|a ptrs IH]; intros H.
  - exists []. repeat split.
  - destruct (H a (or_introl eq_refl)) as (p & Hp & Hs & Hn).
    destruct IH as (values & Hd & Hu & Hpl); [intros b Hb; apply H; right; exact Hb|].
    exists (p :: values). simpl. rewrite Hp, Hd. simpl. rewrite Hs, Hn, Hu, Hpl.
    repeat split.
Qed.

Lemma NoDup_app_parts {A : Type} (l l' : list A) :
  List.NoDup (l ++ l') ->
  List.NoDup l /\ List.NoDup l' /\ forall a, In a l -> ~ In a l'.
Proof.
  induction l as [|x l IH]; simpl; intros H.
  - repeat split; [constructor | exact H | intros a []].
  - apply NoDup_cons_iff in H as [Hx H]. destruct (IH H) as (H1 & H2 & H3).
    repeat split; [|exact H2|].
    + constructor; [|exact H1]. intros Hin. apply Hx, in_or_app. left. exact Hin.
    + intros a [<- | Ha]; [|apply (H3 a Ha)].
      intros Hin. apply Hx, in_or_app. right. exact Hin.
Qed.

(** Constructions on parameters that are free, plain-named and asked for
    once all return, with the successive numbers of the two counters. *)
Lemma prepareAll_ready (greqs : list (stmtRef * gostring * list ptr)) :
  forall (conn : Conn) (heap : Heap),
  List.NoDup (concat (map snd greqs)) ->
  (forall a, In a (concat (map snd greqs)) -> freePlain heap a) ->
  exists sts,
    fst (fst (prepareAll (map requestOf greqs) conn heap)) = map Ok sts /\
    map stmtName sts = map statementName (seq (nextStatementId conn) (length greqs)) /\
    map portalName sts = map portalNameOf (seq (nextPortalId conn) (length greqs)) /\
    snd (fst (prepareAll (map requestOf greqs) conn heap))
    = mkConn (nextStatementId conn + length greqs) (nextPortalId conn + length greqs).
Proof.
  induction greqs as [|[[self cmd] ptrs] greqs IH]; intros conn heap Hnd Hfree.
  - exists []. simpl. rewrite !Nat.add_0_r. destruct conn. repeat split.
  - simpl in Hnd, Hfree. apply NoDup_app_parts in Hnd as (Hnd1 & Hnd2 & Hapart).
    destruct (derefAll_freePlain heap ptrs) as (values & Hd & Hu & Hpl);
      [intros a Ha; apply Hfree, in_or_app; left; exact Ha|].
    destruct (newStatement_after_loop self conn cmd ptrs values heap Hnd1 Hd Hu)
      as (m' & heap' & Hnew & _).
    unfold adjustCommand in Hnew. rewrite (adjustFrom_eq _ Hpl) in Hnew. simpl in Hnew.
    assert (Hfree' : forall a, In a (concat (map snd greqs)) -> freePlain heap' a).
    { intros a Ha.
      destruct (Hfree a (in_or_app _ _ _ (or_intror Ha))) as (q & Hq & Hs & Hn).
      pose proof (bindParams_fields self a (map Some ptrs) ∅ heap) as F.
      rewrite <- newStatement_heap with (conn := conn) (cmd := cmd) in F.
      rewrite Hnew, Hq in F. simpl in F.
      destruct (heap' !! a) as [q'|] eqn:Eq; [|contradiction].
      destruct F as (F1 & _ & [F3 | (_ & _ & F3)]).
      - exists q'. rewrite F1, F3. auto.
      - exfalso. apply in_map_iff in F3 as (b & [= ->] & Hb). apply (Hapart a Hb Ha). }
    destruct (IH (mkConn (S (nextStatementId conn)) (S (nextPortalId conn))) heap' Hnd2 Hfree')
      as (sts & Hres & Hsn & Hpn & Hconn).
    simpl in Hsn, Hpn, Hconn.
    change (map requestOf ((self, cmd, ptrs) :: greqs))
      with ((self, cmd, map Some ptrs) :: map requestOf greqs).
    simpl prepareAll. rewrite Hnew.
    destruct (prepareAll (map requestOf greqs)
                (mkConn (S (nextStatementId conn)) (S (nextPortalId conn))) heap')
      as [[rs conn2] heap2].
    simpl in Hres, Hconn. subst rs conn2.
    eexists (_ :: sts). simpl. rewrite Hsn, Hpn.
    repeat split. f_equal; lia.
Qed.

(** C7.  Over any sequence of constructions on one connection, the
    statements returned are named [stmt<N>] and [prtl<N>] with numbers that
    increase strictly from the counters of the connection, which are zero
    on a fresh one, and no name occurs twice.  When the parameters asked
    for are allocated, free, plain-named and asked for once, every
    construction returns a statement: the names carry the successive
    numbers from the two counters on, and each counter has advanced by the
    number of constructions. *)
Theorem resource_names_never_repeat (reqs : list Request) (conn : Conn) (heap : Heap) :
  nextStatementId freshConn = 0 /\ nextPortalId freshConn = 0 /\
  (exists ns ms,
    map stmtName (statements (fst (fst (prepareAll reqs conn heap)))) = map statementName ns /\
    map portalName (statements (fst (fst (prepareAll reqs conn heap)))) = map portalNameOf ms /\
    ascendingFrom (nextStatementId conn) ns /\
    ascendingFrom (nextPortalId conn) ms /\
    List.NoDup (map stmtName (statements (fst (fst (prepareAll reqs conn heap))))) /\
    List.NoDup (map portalName (statements (fst (fst (prepareAll reqs conn heap))))) /\
    (length (statements (fst (fst (prepareAll reqs conn heap)))) = length reqs ->
     ns = seq (nextStatementId conn) (length reqs) /\
     ms = seq (nextPortalId conn) (length reqs))) /\
  (forall greqs,
     reqs = map requestOf greqs ->
     List.NoDup (concat (map snd greqs)) ->
     (forall a, In a (concat (map snd greqs)) -> freePlain heap a) ->
     exists sts,
       fst (fst (prepareAll reqs conn heap)) = map Ok sts /\
       map stmtName sts = map statementName (seq (nextStatementId conn) (length reqs)) /\
       map portalName sts = map portalNameOf (seq (nextPortalId conn) (length reqs)) /\
       snd (fst (prepareAll reqs conn heap))
       = mkConn (nextStatementId conn + length reqs) (nextPortalId conn + length reqs)).
Proof.
  split; [reflexivity|]. split; [reflexivity|]. split.
  - destruct (prepareAll_names reqs conn heap) as (ns & ms & Hn & Hm & Han & Ham & Hall & _).
    exists ns, ms. repeat split; auto.
    + rewrite Hn. apply (ascendingFrom_NoDup _ _ statementName_inj _ Han).
    + rewrite Hm. apply (ascendingFrom_NoDup _ _ portalNameOf_inj _ Ham).
    + apply Hall. assumption.
    + apply Hall. assumption.
  - intros greqs -> Hnd Hfree. rewrite length_map.
    apply (prepareAll_ready greqs conn heap Hnd Hfree).
Qed.

(** Three constructions on a fresh connection: [stmt0], [stmt1], [stmt2]
    and [prtl0], [prtl1], [prtl2], and both counters at three. *)
Lemma resource_names_never_repeat_witness :
  exists sts,
    fst (fst (prepareAll (map requestOf threeRequests) freshConn twoFree)) = map Ok sts /\
    map stmtName sts = [str "stmt0"; str "stmt1"; str "stmt2"] /\
    map portalName sts = [str "prtl0"; str "prtl1"; str "prtl2"] /\
    snd (fst (prepareAll (map requestOf threeRequests) freshConn twoFree)) = mkConn 3 3.
Proof.
  destruct (resource_names_never_repeat (map requestOf threeRequests) freshConn twoFree)
    as (_ & _ & _ & H).
  apply (H threeRequests).
  - reflexivity.
  - repeat constructor; simpl; intuition lia.
  - intros a [<- | [<- | []]]; eexists; repeat split; reflexivity.
Defined.
